(** * Verification of the supermarket sync and incident logic of
    dutch-bottle-collect-checker.

    Shallow embedding of
    - [scripts/sync-supermarkets.js]: status resolution, address parsing,
      deduplication, the upsert phase and the main sync loop;
    - [src/services/databaseService.ts]: the read-time incident override;
    - [supabase/migrations/20240104000000_initial_schema.sql]: the admin
      functions [get_admin_dashboard_stats] and [bulk_resolve_incidents]
      together with the row triggers of [supermarket_incidents]. *)

From Stdlib Require Import String Ascii List ZArith Bool Lia.
From Stdlib Require Import Numbers.DecimalString.
Import ListNotations.
Open Scope string_scope.
Open Scope Z_scope.

(* ------------------------------------------------------------------ *)
(** ** JavaScript helpers *)

(** JS truthiness of a possibly-undefined string. *)
Definition truthy (o : option string) : bool :=
  match o with
  | Some s => negb (String.eqb s "")
  | None => false
  end.

(** [x === s] for a possibly-undefined string [x]. *)
Definition str_is (o : option string) (s : string) : bool :=
  match o with
  | Some x => String.eqb x s
  | None => false
  end.

(** SQL [x != s] as a WHERE condition: a NULL [x] does not pass. *)
Definition sql_neq (o : option string) (s : string) : bool :=
  match o with
  | Some x => negb (String.eqb x s)
  | None => false
  end.

(** ** Data model *)

(** A bottle-return status as stored in [supermarkets.status]. *)
Inductive Status := Open | Closed | Unknown.

(** Raw Google Places result, as far as the sync script reads it. *)
Module Place.
Record period := {
    open_day : nat;           (* period.open.day *)
    open_time : string;       (* period.open.time, "HHMM" *)
    close_time : option string (* period.close?.time *)
  }.
Record hours := {
    open_now : option bool;           (* undefined when None *)
    periods : option (list period)
  }.
(** Latitudes and longitudes are decimal numbers; they are represented
    in units of 1e-8 degree, the precision of the DECIMAL(10,8) and
    DECIMAL(11,8) columns they end up in. *)
Record t := {
    place_id : option string;
    name : string;
    formatted_address : string;
    lat : Z;
    lng : Z;
    business_status : option string;
    opening_hours : option hours
  }.
End Place.

(** A converted record, the object returned by [convertToSupermarketData]. *)
Module Supermarket.
Record t := {
    name : string;
    chain : string;
    address : string;
    city : string;
    postal_code : string;
    latitude : Z;
    longitude : Z;
    status : Status;
    google_place_id : option string;
    opening_hours : option (list (string * string))
  }.
(** A row of [public.supermarkets]. *)
Record row := {
    id : nat;
    data : t;
    last_updated : Z;
    created_at : Z
  }.
End Supermarket.

(** A row of [public.supermarket_incidents]. *)
Module Incident.
Record t := {
    id : nat;
    supermarket_id : nat;
    incident_type : string;
    status : option string;   (* nullable; NULL passes the CHECK *)
    admin_notes : option string;
    created_at : Z;
    updated_at : Z
  }.
End Incident.

(** The Supabase store as the client sees it: [db_up = false] models an
    unreachable store, on which every query returns an error. *)
Record Db := {
  db_up : bool;
  supermarkets : list Supermarket.row;
  incidents : list Incident.t
}.

(* ------------------------------------------------------------------ *)
(** ** Status resolution (sync-supermarkets.js) *)

(** [.single()]: an error unless exactly one row is returned. *)
Definition single {A} (l : list A) : option A :=
  match l with
  | [x] => Some x
  | _ => None
  end.

(** SQL [google_place_id = p]: NULL never matches. *)
Definition gpid_matches (col : option string) (p : string) : bool :=
  match col with
  | Some q => String.eqb q p
  | None => false
  end.

(** [status === 'open' || status === 'investigating'] in JavaScript, and
    SQL [status IN ('open', 'investigating')], NULL counting as false. *)
Definition is_active_status (s : option string) : bool :=
  str_is s "open" || str_is s "investigating".

(** One day in milliseconds. *)
Definition twenty_four_hours_ms : Z := 86400000.

(** The host's time zone, as the ECMAScript Date functions see it (times
    in milliseconds since the epoch): [tz_offset t] is the offset of local
    time from UTC at the instant [t], and [tz_local_offset l] the offset
    [UTC(l)] subtracts from the local time [l] (for a local time that
    occurs twice or not at all, the zone's disambiguation picks it). *)
Record TimeZone := {
  tz_offset : Z -> Z;
  tz_local_offset : Z -> Z
}.

(** ECMAScript [LocalTime(t)] and [UTC(t)]. *)
Definition LocalTime (tz : TimeZone) (t : Z) : Z := t + tz_offset tz t.
Definition UTC (tz : TimeZone) (t : Z) : Z := t - tz_local_offset tz t.

(** [d = new Date(); d.setHours(d.getHours() - 24)]: [setHours] rebuilds the
    local time with [MakeDate(Day(t), MakeTime(h - 24, min, sec, ms))],
    which is the local time [t] moved back by 24 wall-clock hours, and
    converts it back with [UTC]. Across a change of the zone's offset this
    is 23 or 25 hours before [now]. *)
Definition setHours_minus_24 (tz : TimeZone) (now : Z) : Z :=
  UTC tz (LocalTime tz now - twenty_four_hours_ms).

(** The sync script runs in the host's time zone [tz]; everything that
    reads the clock through [hasRecentIncidents] depends on it. *)
Section HostTimeZone.
Variable tz : TimeZone.

(** [hasRecentIncidents(googlePlaceId)]: every store error is caught and
    answered with [false]. *)
Definition hasRecentIncidents (db : Db) (now : Z) (googlePlaceId : option string)
  : bool :=
  match googlePlaceId with
  | None => false
  | Some p =>
      if String.eqb p "" then false else
      let twentyFourHoursAgo := setHours_minus_24 tz now in
      if negb (db_up db) then false else
      match single (filter (fun r => gpid_matches
                              (Supermarket.google_place_id (Supermarket.data r)) p)
                           (supermarkets db)) with
      | None => false
      | Some supermarket =>
          existsb (fun i =>
                     Nat.eqb (Incident.supermarket_id i) (Supermarket.id supermarket)
                     && (twentyFourHoursAgo <=? Incident.created_at i)
                     && is_active_status (Incident.status i))
                  (incidents db)
      end
  end.

(** [determineStatus(place, googlePlaceId)]. *)
Definition determineStatus (db : Db) (now : Z) (place : Place.t)
  (googlePlaceId : option string) : Status :=
  if str_is (Place.business_status place) "CLOSED_PERMANENTLY"
  then Closed
  else if str_is (Place.business_status place) "CLOSED_TEMPORARILY"
  then Closed
  else if truthy googlePlaceId && hasRecentIncidents db now googlePlaceId
  then Closed
  else match Place.opening_hours place with
       | Some oh =>
           match Place.open_now oh with
           | Some b => if b then Open else Closed
           | None => Closed
           end
       | None => Closed
       end.

(** ** Read-time override (databaseService.ts, [fetchSupermarkets]) *)


Definition incidents_of (db : Db) (r : Supermarket.row) : list Incident.t :=
  filter (fun i => Nat.eqb (Incident.supermarket_id i) (Supermarket.id r)) (incidents db).

(* ------------------------------------------------------------------ *)
(** ** String primitives used by the address parser

    Strings are byte strings; the character classes below are the ASCII
    part of the JavaScript ones ([\d], [\s], [\w], [A-Z], [trim],
    [toLowerCase]). *)

Definition is_digit (c : ascii) : bool :=
  let n := nat_of_ascii c in Nat.leb 48 n && Nat.leb n 57.

Definition is_upper (c : ascii) : bool :=
  let n := nat_of_ascii c in Nat.leb 65 n && Nat.leb n 90.

Definition is_lower (c : ascii) : bool :=
  let n := nat_of_ascii c in Nat.leb 97 n && Nat.leb n 122.

(** [\w]: [A-Za-z0-9_]. *)
Definition is_word (c : ascii) : bool :=
  is_digit c || is_upper c || is_lower c || Nat.eqb (nat_of_ascii c) 95.

(** [\s]: space, tab, LF, VT, FF, CR. *)
Definition is_space (c : ascii) : bool :=
  let n := nat_of_ascii c in Nat.eqb n 32 || (Nat.leb 9 n && Nat.leb n 13).

Definition to_lower_char (c : ascii) : ascii :=
  if is_upper c then ascii_of_nat (nat_of_ascii c + 32) else c.

(** [String.prototype.toLowerCase]. *)
Fixpoint toLowerCase (s : string) : string :=
  match s with
  | EmptyString => EmptyString
  | String c s' => String (to_lower_char c) (toLowerCase s')
  end.

(** [/\d/.test(s)]. *)
Fixpoint has_digit (s : string) : bool :=
  match s with
  | EmptyString => false
  | String c s' => is_digit c || has_digit s'
  end.

Fixpoint drop_leading_space (s : string) : string :=
  match s with
  | String c s' => if is_space c then drop_leading_space s' else s
  | EmptyString => EmptyString
  end.

Definition rev_string (s : string) : string :=
  string_of_list_ascii (rev (list_ascii_of_string s)).

(** [String.prototype.trim]. *)
Definition trim (s : string) : string :=
  rev_string (drop_leading_space (rev_string (drop_leading_space s))).

(** [s.includes(t)]. *)
Fixpoint includes (s t : string) : bool :=
  if String.prefix t s then true
  else match s with
       | EmptyString => false
       | String _ s' => includes s' t
       end.

(** [s.split(sep)] for a non-empty separator [sep]; [cur] is the segment
    read so far. *)
Fixpoint split_aux (sep : string) (cur : string) (s : string) (fuel : nat)
  : list string :=
  match fuel with
  | O => [cur ++ s]
  | S fuel' =>
      if String.prefix sep s then
        cur :: split_aux sep "" (substring (String.length sep)
                                   (String.length s - String.length sep) s) fuel'
      else match s with
           | EmptyString => [cur]
           | String c s' => split_aux sep (cur ++ String c "") s' fuel'
           end
  end.

Definition split (sep : string) (s : string) : list string :=
  split_aux sep "" s (S (String.length s)).

(** [parts.join(sep)]. *)
Fixpoint join (sep : string) (parts : list string) : string :=
  match parts with
  | [] => ""
  | [p] => p
  | p :: ps => p ++ sep ++ join sep ps
  end.

(** [s.replace(t, "")] with a string pattern: only the first occurrence
    is removed. *)
Fixpoint replace_first (t : string) (s : string) : string :=
  if String.prefix t s then substring (String.length t) (String.length s - String.length t) s
  else match s with
       | EmptyString => EmptyString
       | String c s' => String c (replace_first t s')
       end.

(** [s.replace(/\s+/g, ' ')]. *)
Fixpoint collapse_ws (in_ws : bool) (s : string) : string :=
  match s with
  | EmptyString => EmptyString
  | String c s' =>
      if is_space c then (if in_ws then collapse_ws true s' else String " " (collapse_ws true s'))
      else String c (collapse_ws false s')
  end.

(** ** The postal-code regular expression [/\b(\d{4}\s?[A-Z]{2})\b/] *)

Definition word_before (prev : option ascii) : bool :=
  match prev with Some c => is_word c | None => false end.

Definition word_at (s : string) : bool :=
  match s with String c _ => is_word c | EmptyString => false end.

(** [[A-Z]{2}\b] after the (already consumed) text [acc]. *)
Definition match_letters (acc : string) (s : string) : option string :=
  match s with
  | String a (String b rest) =>
      if is_upper a && is_upper b && negb (word_at rest)
      then Some (acc ++ String a (String b "")) else None
  | _ => None
  end.

(** The body [\d{4}\s?[A-Z]{2}\b] at the start of [s], the leading [\b]
    already checked; [\s?] is greedy and backtracks to the empty match. *)
Definition match_body (s : string) : option string :=
  match s with
  | String d1 (String d2 (String d3 (String d4 rest))) =>
      if is_digit d1 && is_digit d2 && is_digit d3 && is_digit d4 then
        let ds := String d1 (String d2 (String d3 (String d4 ""))) in
        match rest with
        | String w rest' =>
            if is_space w then
              match match_letters (ds ++ String w "") rest' with
              | Some m => Some m
              | None => match_letters ds rest
              end
            else match_letters ds rest
        | EmptyString => None
        end
      else None
  | _ => None
  end.

(** Leftmost match: [Some m] with [m = match[1]]. *)
Fixpoint regex_search (prev : option ascii) (s : string) : option string :=
  let here :=
    if xorb (word_before prev) (word_at s) then match_body s else None in
  match here with
  | Some m => Some m
  | None =>
      match s with
      | EmptyString => None
      | String c s' => regex_search (Some c) s'
      end
  end.

Definition postalCodeMatch (part : string) : option string :=
  regex_search None part.

(* ------------------------------------------------------------------ *)
(** ** [convertToSupermarketData] *)

Definition DUTCH_SUPERMARKET_CHAINS : list string :=
  ["Albert Heijn"; "Jumbo"; "Lidl"].

(** [getChainName(placeName)]. *)
Definition getChainName (placeName : string) : string :=
  match find (fun chainName => includes (toLowerCase placeName) (toLowerCase chainName))
             DUTCH_SUPERMARKET_CHAINS with
  | Some chain => chain
  | None => "Onbekend"
  end.

(** The loop [for (i = parts.length - 1; i >= 0; i--)]: the last index
    whose part matches, with that part and [match[1]]. *)
Fixpoint find_postal_part (i : nat) (parts : list string)
  : option (nat * string * string) :=
  match parts with
  | [] => None
  | part :: rest =>
      match find_postal_part (S i) rest with
      | Some r => Some r
      | None =>
          match postalCodeMatch part with
          | Some m => Some (i, part, m)
          | None => None
          end
      end
  end.

(** [parts.splice(i, 1)]. *)
Fixpoint remove_nth {A} (i : nat) (l : list A) : list A :=
  match l, i with
  | [], _ => []
  | _ :: l', O => l'
  | x :: l', S i' => x :: remove_nth i' l'
  end.

Definition country_names : list string :=
  ["Netherlands"; "Nederland"; "The Netherlands"].

Definition is_country (part : string) : bool :=
  existsb (String.eqb (trim part)) country_names.

(** The address part of [convertToSupermarketData]: the triple
    (address, city, postalCode) before the ['Onbekend adres'] /
    ['Onbekende stad'] defaults are applied. *)
Definition parse_address (place : Place.t) : string * string * string :=
  let addressParts := split ", " (Place.formatted_address place) in
  (* postal code search, from the last part backwards *)
  let '(postalCode, city, addressParts) :=
    match find_postal_part 0 addressParts with
    | Some (i, part, m) =>
        let postalCode := collapse_ws false m in
        let cityMatch := trim (replace_first postalCode part) in
        (postalCode, cityMatch, remove_nth i addressParts)
    | None => ("", "", addressParts)
    end in
  (* no city yet: the last part, if it looks like a city *)
  let '(city, addressParts) :=
    if String.eqb city "" && Nat.ltb 0 (List.length addressParts) then
      let lastPart := last addressParts "" in
      if negb (has_digit lastPart) && Nat.ltb 2 (String.length lastPart)
         && Nat.ltb (String.length lastPart) 50
      then (lastPart, removelast addressParts)
      else (city, addressParts)
    else (city, addressParts) in
  let filteredParts := filter (fun part => negb (is_country part)) addressParts in
  let address := trim (join ", " filteredParts) in
  (* fallback: a trailing word of the place name *)
  let city :=
    if String.eqb city "" && negb (String.eqb (Place.name place) "") then
      let nameParts := split " " (Place.name place) in
      if Nat.ltb 2 (List.length nameParts) then
        let possibleCity := last nameParts "" in
        if Nat.ltb 3 (String.length possibleCity) && negb (has_digit possibleCity)
        then possibleCity else city
      else city
    else city in
  let postalCode := trim postalCode in
  let city := trim city in
  let address := trim address in
  let address :=
    if String.eqb address "" && negb (String.eqb (Place.formatted_address place) "") then
      let firstPart := hd "" (split "," (Place.formatted_address place)) in
      if negb (String.eqb firstPart "")
         && negb (String.eqb (trim firstPart) (Place.name place))
      then trim firstPart else address
    else address in
  (address, city, postalCode).

Definition days : list string :=
  ["sunday"; "monday"; "tuesday"; "wednesday"; "thursday"; "friday"; "saturday"].

(** Assignment [obj[k] = v] on a JS object kept as an association list in
    key insertion order. *)
Fixpoint obj_set (k v : string) (o : list (string * string)) : list (string * string) :=
  match o with
  | [] => [(k, v)]
  | (k', v') :: o' => if String.eqb k k' then (k, v) :: o' else (k', v') :: obj_set k v o'
  end.

(** [formatTime(timeString)]. *)
Definition formatTime (timeString : string) : string :=
  if negb (Nat.eqb (String.length timeString) 4) then timeString
  else substring 0 2 timeString ++ ":" ++ substring 2 2 timeString.

(** [parseOpeningHours(place)]; an out-of-range day index names the key
    ["undefined"], as [days[dayIndex]] does. *)
Definition parseOpeningHours (place : Place.t) : option (list (string * string)) :=
  match option_map Place.periods (Place.opening_hours place) with
  | Some (Some periods) =>
      let init := map (fun d => (d, "Closed")) days in
      Some (fold_left
              (fun oh period =>
                 let dayName := match nth_error days (Place.open_day period) with
                                | Some d => d | None => "undefined" end in
                 match Place.close_time period with
                 | Some ct =>
                     obj_set dayName (formatTime (Place.open_time period) ++ "-"
                                      ++ formatTime ct) oh
                 | None => obj_set dayName "24 hours" oh
                 end)
              periods init)
  | _ => None
  end.

(** [convertToSupermarketData(place)]. *)
Definition convertToSupermarketData (db : Db) (now : Z) (place : Place.t)
  : Supermarket.t :=
  let '(address, city, postalCode) := parse_address place in
  {| Supermarket.name := Place.name place;
     Supermarket.chain := getChainName (Place.name place);
     Supermarket.address := if String.eqb address "" then "Onbekend adres" else address;
     Supermarket.city := if String.eqb city "" then "Onbekende stad" else city;
     Supermarket.postal_code := postalCode;
     Supermarket.latitude := Place.lat place;
     Supermarket.longitude := Place.lng place;
     Supermarket.status := determineStatus db now place (Place.place_id place);
     Supermarket.google_place_id := Place.place_id place;
     Supermarket.opening_hours := parseOpeningHours place |}.

Definition example_place : Place.t :=
  {| Place.place_id := Some "ChIJexample";
     Place.name := "Albert Heijn Dorpsstraat";
     Place.formatted_address := "Dorpsstraat 12, 1234 AB Voorbeeldstad, Netherlands";
     Place.lat := 5200000000; Place.lng := 500000000;
     Place.business_status := Some "OPERATIONAL";
     Place.opening_hours := None |}.

(* ------------------------------------------------------------------ *)
(** ** [deduplicateResults] *)

Definition digits (n : N) : string := NilEmpty.string_of_uint (N.to_uint n).

Fixpoint drop_zeros (s : string) : string :=
  match s with
  | String "0" s' => drop_zeros s'
  | _ => s
  end.

Definition pad8 (s : string) : string :=
  substring 0 (8 - String.length s) "00000000" ++ s.

(** [`${x}`] for a number [x] given in units of 1e-8, in the decimal
    (non-exponent) form JavaScript prints for magnitudes between 1e-6 and
    1e21, which covers every coordinate inside the Netherlands box. *)
Definition number_to_string (z : Z) : string :=
  let a := Z.abs z in
  let q := a / 100000000 in
  let r := a mod 100000000 in
  (if z <? 0 then "-" else "") ++ digits (Z.to_N q)
  ++ (if r =? 0 then ""
      else "." ++ rev_string (drop_zeros (rev_string (pad8 (digits (Z.to_N r)))))).

(** [result.google_place_id || `${result.name}-${result.latitude}-${result.longitude}`]. *)
Definition dedup_key (result : Supermarket.t) : string :=
  let composite := Supermarket.name result ++ "-" ++ number_to_string (Supermarket.latitude result)
                   ++ "-" ++ number_to_string (Supermarket.longitude result) in
  match Supermarket.google_place_id result with
  | Some p => if String.eqb p "" then composite else p
  | None => composite
  end.

(** The loop of [deduplicateResults], with the set [seen] as a list. *)
Fixpoint dedup_loop (seen : list string) (results : list Supermarket.t)
  : list Supermarket.t :=
  match results with
  | [] => []
  | result :: rest =>
      let key := dedup_key result in
      if existsb (String.eqb key) seen then dedup_loop seen rest
      else result :: dedup_loop (key :: seen) rest
  end.

Definition deduplicateResults (results : list Supermarket.t) : list Supermarket.t :=
  dedup_loop [] results.

(* ------------------------------------------------------------------ *)
(** ** [upsertSupermarkets] *)

Definition batchSize : nat := 50.

(** [supermarkets.slice(i, i + batchSize)] for [i = 0, batchSize, ...]. *)
Fixpoint batches_aux (fuel : nat) (l : list Supermarket.t) : list (list Supermarket.t) :=
  match fuel with
  | O => []
  | S fuel' =>
      match l with
      | [] => []
      | _ => firstn batchSize l :: batches_aux fuel' (skipn batchSize l)
      end
  end.

Definition batches (l : list Supermarket.t) : list (list Supermarket.t) :=
  batches_aux (List.length l) l.

(** [.from('supermarkets').select(...).eq('google_place_id', p).limit(1)]:
    the first matching row, no data when the store is unreachable. *)
Definition select_by_place_id (db : Db) (p : string) : option Supermarket.row :=
  if db_up db then
    find (fun r => gpid_matches (Supermarket.google_place_id (Supermarket.data r)) p)
         (supermarkets db)
  else None.

(** [Map.prototype.set] / [get] on string keys. *)
Fixpoint map_set {V} (k : string) (v : V) (m : list (string * V)) : list (string * V) :=
  match m with
  | [] => [(k, v)]
  | (k', v') :: m' => if String.eqb k k' then (k, v) :: m' else (k', v') :: map_set k v m'
  end.

Fixpoint map_get {V} (k : string) (m : list (string * V)) : option V :=
  match m with
  | [] => None
  | (k', v) :: m' => if String.eqb k k' then Some v else map_get k m'
  end.

(** One iteration of the loop filling [existingRecords]. *)
Definition existing_step (db : Db) (existing : list (string * Supermarket.row))
  (sm : Supermarket.t) : list (string * Supermarket.row) :=
  match Supermarket.google_place_id sm with
  | Some p =>
      if String.eqb p "" then existing else
      match select_by_place_id db p with
      | Some r => map_set p r existing
      | None => existing
      end
  | None => existing
  end.

Definition find_existing (db : Db) (batch : list Supermarket.t)
  : list (string * Supermarket.row) :=
  fold_left (existing_step db) batch [].

(** [existingRecords.get(supermarket.google_place_id)]; an undefined key
    is never in the map. *)
Definition existing_get (existing : list (string * Supermarket.row)) (sm : Supermarket.t)
  : option Supermarket.row :=
  match Supermarket.google_place_id sm with
  | Some p => map_get p existing
  | None => None
  end.

Definition max_id (rows : list Supermarket.row) : nat :=
  fold_right (fun r m => Nat.max (Supermarket.id r) m) 0%nat rows.

(** Non-NULL place ids of a list of records. *)
Definition place_ids (l : list Supermarket.t) : list string :=
  flat_map (fun sm => match Supermarket.google_place_id sm with
                      | Some p => [p] | None => [] end) l.

Fixpoint has_dup (l : list string) : bool :=
  match l with
  | [] => false
  | x :: l' => existsb (String.eqb x) l' || has_dup l'
  end.

(** The unique index [idx_supermarkets_google_place_id] (on non-NULL
    values) rejects the insert of [newRecords] as a whole when a new place
    id is already stored or occurs twice among the new records. *)
Definition insert_violates (db : Db) (newRecords : list Supermarket.t) : bool :=
  let stored := place_ids (map Supermarket.data (supermarkets db)) in
  let fresh := place_ids newRecords in
  existsb (fun p => existsb (String.eqb p) stored) fresh
  || has_dup fresh.

(** [.insert(newRecords)]: rows get fresh ids; [created_at] is set by the
    client and [last_updated] by its column default, both to [now]. *)
Definition insert_rows (db : Db) (now : Z) (newRecords : list Supermarket.t)
  : option Db :=
  if negb (db_up db) || insert_violates db newRecords then None
  else
    let base := S (max_id (supermarkets db)) in
    let rows := map (fun '(k, sm) =>
                       {| Supermarket.id := (base + k)%nat; Supermarket.data := sm;
                          Supermarket.last_updated := now; Supermarket.created_at := now |})
                    (combine (seq 0 (List.length newRecords)) newRecords) in
    Some {| db_up := db_up db; supermarkets := supermarkets db ++ rows;
            incidents := incidents db |}.

(** [.update({...all fields...}).eq('id', id)]; the BEFORE UPDATE trigger
    sets [last_updated] to [now]. The place id written is the one the row
    was found by, so the unique index is not at stake. *)
Definition update_row (db : Db) (now : Z) (rid : nat) (sm : Supermarket.t) : option Db :=
  if negb (db_up db) then None
  else Some {| db_up := db_up db;
               supermarkets :=
                 map (fun r => if Nat.eqb (Supermarket.id r) rid
                               then {| Supermarket.id := Supermarket.id r;
                                       Supermarket.data := sm;
                                       Supermarket.last_updated := now;
                                       Supermarket.created_at := Supermarket.created_at r |}
                               else r) (supermarkets db);
               incidents := incidents db |}.

(** One batch: lookups, split into new and existing, insert, updates.
    Returns the store and the numbers inserted and updated. *)
Definition process_batch (now : Z) (st : Db * nat * nat) (batch : list Supermarket.t)
  : Db * nat * nat :=
  let '(db, totalInserted, totalUpdated) := st in
  let existing := find_existing db batch in
  let newRecords := filter (fun sm => match existing_get existing sm with
                                      | Some _ => false | None => true end) batch in
  let updateRecords := flat_map (fun sm => match existing_get existing sm with
                                           | Some r => [(Supermarket.id r, sm)]
                                           | None => [] end) batch in
  let '(db, totalInserted) :=
    match newRecords with
    | [] => (db, totalInserted)
    | _ => match insert_rows db now newRecords with
           | Some db' => (db', (totalInserted + List.length newRecords)%nat)
           | None => (db, totalInserted)
           end
    end in
  fold_left (fun '(db, ti, tu) '(rid, sm) =>
               match update_row db now rid sm with
               | Some db' => (db', ti, S tu)
               | None => (db, ti, tu)
               end) updateRecords (db, totalInserted, totalUpdated).

Definition upsertSupermarkets (db : Db) (now : Z) (l : list Supermarket.t)
  : Db * nat * nat :=
  fold_left (process_batch now) (batches l) (db, 0%nat, 0%nat).

Definition upsert_db (db : Db) (now : Z) (l : list Supermarket.t) : Db :=
  fst (fst (upsertSupermarkets db now l)).

(** A row with its [last_updated] timestamp erased. *)
Definition erase_row (r : Supermarket.row) : Supermarket.row :=
  {| Supermarket.id := Supermarket.id r; Supermarket.data := Supermarket.data r;
     Supermarket.last_updated := 0; Supermarket.created_at := Supermarket.created_at r |}.

Definition erase_db (db : Db) : Db :=
  {| db_up := db_up db; supermarkets := map erase_row (supermarkets db);
     incidents := incidents db |}.

(* ------------------------------------------------------------------ *)
(** ** [searchPlacesByText] and the main loop of [syncSupermarkets] *)

(** The HTTP exchange with the Places API for one query. *)
Inductive Response :=
| NetworkError (message : string)
| HttpResponse (ok : bool) (apiStatus : string) (results : option (list Place.t)).

Inductive SearchResult :=
| SearchOk (results : list Place.t)
| SearchErr (message : string).

Definition searchPlacesByText (apiKey : option string) (fetch : string -> Response)
  (query : string) : SearchResult :=
  if negb (truthy apiKey) then SearchErr "Google Places API key not configured."
  else match fetch query with
       | NetworkError m => SearchErr m
       | HttpResponse ok apiStatus results =>
           if negb ok then SearchErr "Places API error"
           else if String.eqb apiStatus "REQUEST_DENIED" then SearchErr "Places API access denied"
           else if negb (String.eqb apiStatus "OK") && negb (String.eqb apiStatus "ZERO_RESULTS")
           then SearchErr ("Places API status: " ++ apiStatus)
           else SearchOk (match results with Some rs => rs | None => [] end)
       end.

(** [isInNetherlands(lat, lng)], coordinates in units of 1e-8 degree. *)
Definition isInNetherlands (lat lng : Z) : bool :=
  (5050000000 <=? lat) && (lat <=? 5370000000)
  && (320000000 <=? lng) && (lng <=? 730000000).

(** Console output of the chain loop. *)
Inductive LogEntry :=
| ChainFetched (chain : string) (count : nat)
| FetchFailed (chain : string) (message : string).

(** One iteration of [for (const chain of DUTCH_SUPERMARKET_CHAINS)] with
    its [try]/[catch]: the results of the chain are appended, or the
    failure is logged and the loop goes on. *)
Definition fetch_chain (apiKey : option string) (fetch : string -> Response)
  (db : Db) (now : Z) (st : list Supermarket.t * list LogEntry) (chain : string)
  : list Supermarket.t * list LogEntry :=
  let '(allResults, log) := st in
  let query := chain ++ " supermarket Netherlands" in
  match searchPlacesByText apiKey fetch query with
  | SearchErr message => (allResults, (log ++ [FetchFailed chain message])%list)
  | SearchOk results =>
      let filteredResults :=
        filter (fun place => isInNetherlands (Place.lat place) (Place.lng place)) results in
      let converted := map (convertToSupermarketData db now) filteredResults in
      ((allResults ++ converted)%list, (log ++ [ChainFetched chain (List.length converted)])%list)
  end.

Definition fetch_all (apiKey : option string) (fetch : string -> Response)
  (db : Db) (now : Z) (chains : list string) : list Supermarket.t * list LogEntry :=
  fold_left (fetch_chain apiKey fetch db now) chains ([], []).

Inductive SyncOutcome :=
| SyncFailed (message : string)                 (* process.exit(1) *)
| SyncNoData (log : list LogEntry)              (* early return *)
| SyncDone (db : Db) (totalInserted totalUpdated : nat) (log : list LogEntry).

(** [syncSupermarkets()] over a list of chain names; the writes to
    [sync_metadata] are left out. *)
Definition syncSupermarkets_over (chains : list string) (apiKey : option string)
  (fetch : string -> Response) (db : Db) (now : Z) : SyncOutcome :=
  if negb (truthy apiKey) then SyncFailed "Google Places API key is required."
  else if negb (db_up db) then SyncFailed "Supabase connection failed"
  else
    let '(allResults, log) := fetch_all apiKey fetch db now chains in
    match allResults with
    | [] => SyncNoData log
    | _ =>
        let uniqueResults := deduplicateResults allResults in
        let '(db', totalInserted, totalUpdated) := upsertSupermarkets db now uniqueResults in
        SyncDone db' totalInserted totalUpdated log
    end.

Definition syncSupermarkets := syncSupermarkets_over DUTCH_SUPERMARKET_CHAINS.

(* ------------------------------------------------------------------ *)
(** ** Admin functions of the initial schema migration *)

(** SQL three-valued booleans: [None] is NULL. *)
Definition sql_eq (a : option string) (b : string) : option bool :=
  option_map (fun x => String.eqb x b) a.

Definition sql_and (a b : option bool) : option bool :=
  match a, b with
  | Some false, _ | _, Some false => Some false
  | Some true, Some true => Some true
  | _, _ => None
  end.

Definition sql_not (a : option bool) : option bool := option_map negb a.

(** PL/pgSQL [IF c THEN]: the branch is taken only when [c] is true. *)
Definition sql_if (c : option bool) : bool :=
  match c with Some true => true | _ => false end.

(** The caller as the database sees it: [auth.role()] and the key/value
    pairs of the [user_metadata] claim of [auth.jwt()]. *)
Record Caller := {
  auth_role : option string;
  user_metadata : option (list (string * string))
}.

(** [(auth.jwt() ->> 'user_metadata')::jsonb ->> 'role']. *)
Definition role_claim (c : Caller) : option string :=
  match user_metadata c with
  | Some md => map_get "role" md
  | None => None
  end.

(** [IF NOT (auth.role() = 'authenticated' AND ... = 'supermarket_admin')
     THEN RAISE EXCEPTION 'Access denied. Admin role required.']. *)
Definition raises_access_denied (c : Caller) : bool :=
  sql_if (sql_not (sql_and (sql_eq (auth_role c) "authenticated")
                           (sql_eq (role_claim c) "supermarket_admin"))).

Inductive PgError :=
| AccessDenied
| NoField (field : string).

Inductive PgResult (A : Type) :=
| PgOk (a : A)
| PgErr (e : PgError).
Arguments PgOk {A} a.
Arguments PgErr {A} e.

Record DashboardStats := {
  total_supermarkets : nat;
  total_incidents : nat;
  active_incidents : nat;
  resolved_incidents : nat
}.

Definition count {A} (p : A -> bool) (l : list A) : nat := List.length (filter p l).

(** [get_admin_dashboard_stats()]. *)
Definition get_admin_dashboard_stats (c : Caller) (db : Db) : PgResult DashboardStats :=
  if raises_access_denied c then PgErr AccessDenied
  else PgOk {| total_supermarkets := List.length (supermarkets db);
               total_incidents := List.length (incidents db);
               active_incidents := count (fun i => is_active_status (Incident.status i))
                                         (incidents db);
               resolved_incidents :=
                 count (fun i => str_is (Incident.status i) "resolved"
                                 || str_is (Incident.status i) "closed") (incidents db) |}.

(** Columns of [public.supermarket_incidents]. *)
Definition incident_columns : list string :=
  ["id"; "supermarket_id"; "incident_type"; "description"; "reporter_email";
   "reporter_name"; "priority"; "status"; "admin_notes"; "created_at"; "updated_at"].

(** [update_updated_at_column()] run as the BEFORE UPDATE trigger
    [update_incidents_updated_at]: [NEW.last_updated = NOW()] assigns a
    field the row of [supermarket_incidents] does not have, which PL/pgSQL
    rejects ([record "new" has no field "last_updated"]). *)
Definition update_incidents_updated_at (now : Z) (new : Incident.t) : PgResult Incident.t :=
  if existsb (String.eqb "last_updated") incident_columns then PgOk new
  else PgErr (NoField "last_updated").

(** The [UPDATE] of [bulk_resolve_incidents] row by row, each new row
    passed through the BEFORE UPDATE trigger [before]; an error aborts the
    statement. Returns the new rows and [ROW_COUNT]. *)
Fixpoint bulk_update (before : Z -> Incident.t -> PgResult Incident.t) (now : Z)
  (incident_ids : list nat) (admin_note : option string) (rows : list Incident.t)
  : PgResult (list Incident.t * nat) :=
  match rows with
  | [] => PgOk ([], 0%nat)
  | i :: rows' =>
      match bulk_update before now incident_ids admin_note rows' with
      | PgErr e => PgErr e
      | PgOk (rows'', n) =>
          if existsb (Nat.eqb (Incident.id i)) incident_ids
             && sql_neq (Incident.status i) "resolved"
          then
            let new := {| Incident.id := Incident.id i;
                          Incident.supermarket_id := Incident.supermarket_id i;
                          Incident.incident_type := Incident.incident_type i;
                          Incident.status := Some "resolved";
                          Incident.admin_notes :=
                            match admin_note with
                            | Some n => Some n
                            | None => Incident.admin_notes i
                            end;
                          Incident.created_at := Incident.created_at i;
                          Incident.updated_at := now |} in
            match before now new with
            | PgErr e => PgErr e
            | PgOk new' => PgOk (new' :: rows'', S n)
            end
          else PgOk (i :: rows'', n)
      end
  end.

(** [bulk_resolve_incidents(incident_ids, admin_note)] with the given
    BEFORE UPDATE trigger; on error the transaction is rolled back and the
    store is the one it was called on. *)
Definition bulk_resolve_with (before : Z -> Incident.t -> PgResult Incident.t)
  (c : Caller) (now : Z) (db : Db) (incident_ids : list nat) (admin_note : option string)
  : Db * PgResult nat :=
  if raises_access_denied c then (db, PgErr AccessDenied)
  else match bulk_update before now incident_ids admin_note (incidents db) with
       | PgErr e => (db, PgErr e)
       | PgOk (rows, n) =>
           ({| db_up := db_up db; supermarkets := supermarkets db; incidents := rows |},
            PgOk n)
       end.

Definition bulk_resolve_incidents := bulk_resolve_with update_incidents_updated_at.

(* ------------------------------------------------------------------ *)
(** ** The status resolver as the spec words it *)

(** Section 4.2 of the spec: rules in priority order, first match wins. *)
Definition spec_resolve (closure recent_incident : bool) (open_now : option bool) : Status :=
  if closure then Closed
  else if recent_incident then Closed
  else match open_now with
       | Some true => Open
       | Some false => Closed
       | None => Closed
       end.

Definition is_closure (place : Place.t) : bool :=
  str_is (Place.business_status place) "CLOSED_PERMANENTLY"
  || str_is (Place.business_status place) "CLOSED_TEMPORARILY".

(** [place.opening_hours?.open_now]. *)
Definition open_now_flag (place : Place.t) : option bool :=
  match Place.opening_hours place with
  | Some oh => Place.open_now oh
  | None => None
  end.

(** The resolver of the front-end Places service
    ([src/unnamed/part_006], [determineStatus(place)]): a closure business
    status gives "closed", a defined open-now flag is passed through, and
    anything else is "unknown". *)
Definition service_determineStatus (place : Place.t) : Status :=
  if str_is (Place.business_status place) "CLOSED_PERMANENTLY"
     || str_is (Place.business_status place) "CLOSED_TEMPORARILY"
  then Closed
  else match Place.opening_hours place with
       | Some oh =>
           match Place.open_now oh with
           | Some b => if b then Open else Closed
           | None => Unknown
           end
       | None => Unknown
       end.

(* ------------------------------------------------------------------ *)
(** * Proofs *)

(** ** Status resolution *)

Lemma hasRecentIncidents_falsy db now pid :
  truthy pid = false -> hasRecentIncidents db now pid = false.
Proof.
  destruct pid as [p|]; simpl; [|reflexivity].
  destruct (String.eqb p "") eqn:E; simpl; [reflexivity | discriminate].
Qed.

Lemma truthy_and_hasRecentIncidents db now pid :
  truthy pid && hasRecentIncidents db now pid = hasRecentIncidents db now pid.
Proof.
  destruct (truthy pid) eqn:T; [reflexivity|].
  now rewrite hasRecentIncidents_falsy.
Qed.

Lemma determineStatus_rules db now place pid :
  determineStatus db now place pid =
  spec_resolve (is_closure place) (hasRecentIncidents db now pid) (open_now_flag place).
Proof.
  unfold determineStatus, spec_resolve, is_closure, open_now_flag.
  rewrite truthy_and_hasRecentIncidents.
  destruct (str_is (Place.business_status place) "CLOSED_PERMANENTLY"); [reflexivity|].
  destruct (str_is (Place.business_status place) "CLOSED_TEMPORARILY"); [reflexivity|].
  simpl. destruct (hasRecentIncidents db now pid); [reflexivity|].
  destruct (Place.opening_hours place) as [oh|]; [|reflexivity].
  destruct (Place.open_now oh) as [[|]|]; reflexivity.
Qed.

(** Claim C1. [determineStatus] follows the four rules in priority order,
    first match winning: a CLOSED_PERMANENTLY or CLOSED_TEMPORARILY
    business status gives "closed" whatever the store (incidents) and
    opening hours hold; otherwise a positive recent-incident check gives
    "closed"; otherwise the open-now flag is passed through when present;
    otherwise "closed". *)
Theorem C1_determineStatus_priority_order :
  forall (db : Db) (now : Z) (place : Place.t) (pid : option string),
    determineStatus db now place pid =
    if is_closure place then Closed
    else if hasRecentIncidents db now pid then Closed
    else match open_now_flag place with
         | Some true => Open
         | Some false => Closed
         | None => Closed
         end.
Proof.
  intros db now place pid. rewrite determineStatus_rules. reflexivity.
Qed.

(** A place that is operational and carries no opening hours. *)
Definition c4_place : Place.t :=
  {| Place.place_id := Some "p1"; Place.name := "Jumbo Centrum";
     Place.formatted_address := "Markt 1, 1000 AA Amsterdam, Netherlands";
     Place.lat := 5237000000; Place.lng := 489000000;
     Place.business_status := Some "OPERATIONAL";
     Place.opening_hours := None |}.

(** Claim C4, counterexample: for an operational place without opening
    hours, the front-end service's resolver answers "unknown", not
    "closed". *)
Lemma C4_service_resolver_answers_unknown :
  is_closure c4_place = false /\ open_now_flag c4_place = None
  /\ service_determineStatus c4_place = Unknown.
Proof. split; [reflexivity|]. split; reflexivity. Qed.

(** Claim C4 (amended). For a place with no closure status and no
    open-now flag, the sync script's [determineStatus] answers "closed"
    whenever its recent-incident check is negative, and the front-end
    service's resolver answers "unknown"; neither answers "open". *)
Theorem C4_sync_closed_service_unknown :
  forall (db : Db) (now : Z) (place : Place.t) (pid : option string),
    is_closure place = false ->
    open_now_flag place = None ->
    (hasRecentIncidents db now pid = false -> determineStatus db now place pid = Closed)
    /\ service_determineStatus place = Unknown.
Proof.
  intros db now place pid Hc Ho. split.
  - intros Hi. rewrite determineStatus_rules, Hc, Hi, Ho. reflexivity.
  - unfold service_determineStatus. unfold is_closure in Hc. rewrite Hc.
    unfold open_now_flag in Ho.
    destruct (Place.opening_hours place) as [oh|]; [|reflexivity].
    now rewrite Ho.
Qed.

(** The incident lookup of [hasRecentIncidents] fails when the store is
    unreachable or when [.single()] does not see exactly one location. *)
Definition lookup_fails (db : Db) (p : string) : Prop :=
  db_up db = false \/
  single (filter (fun r => gpid_matches (Supermarket.google_place_id (Supermarket.data r)) p)
                 (supermarkets db)) = None.

Lemma hasRecentIncidents_lookup_fails db now p :
  lookup_fails db p -> hasRecentIncidents db now (Some p) = false.
Proof.
  intros [Hd|Hs]; simpl; destruct (String.eqb p ""); try reflexivity.
  - now rewrite Hd.
  - destruct (db_up db); simpl; [|reflexivity]. now rewrite Hs.
Qed.

(** Claim C10. A failed incident lookup is answered as "no recent
    incident": a place that is not closed and reports open-now = true
    resolves to "open", whatever incidents the store holds for it. *)
Theorem C10_failed_lookup_reports_open :
  forall (db : Db) (now : Z) (place : Place.t) (p : string),
    lookup_fails db p ->
    is_closure place = false ->
    open_now_flag place = Some true ->
    determineStatus db now place (Some p) = Open.
Proof.
  intros db now place p Hl Hc Ho.
  rewrite determineStatus_rules, Hc, (hasRecentIncidents_lookup_fails _ _ _ Hl), Ho.
  reflexivity.
Qed.

(** A location stored under place id "p1" with an open incident created
    one hour before [now], while the store is unreachable. *)
Definition c10_row : Supermarket.row :=
  {| Supermarket.id := 1;
     Supermarket.data := {| Supermarket.name := "Lidl Noord"; Supermarket.chain := "Lidl";
                            Supermarket.address := "Kade 3"; Supermarket.city := "Utrecht";
                            Supermarket.postal_code := "3511 AB";
                            Supermarket.latitude := 5209000000;
                            Supermarket.longitude := 512000000;
                            Supermarket.status := Open;
                            Supermarket.google_place_id := Some "p1";
                            Supermarket.opening_hours := None |};
     Supermarket.last_updated := 0; Supermarket.created_at := 0 |}.

Definition c10_incident : Incident.t :=
  {| Incident.id := 7; Incident.supermarket_id := 1; Incident.incident_type := "machine_broken";
     Incident.status := Some "open"; Incident.admin_notes := None;
     Incident.created_at := 1000000000 - 3600000; Incident.updated_at := 0 |}.

Definition c10_place : Place.t :=
  {| Place.place_id := Some "p1"; Place.name := "Lidl Noord";
     Place.formatted_address := "Kade 3, 3511 AB Utrecht, Netherlands";
     Place.lat := 5209000000; Place.lng := 512000000;
     Place.business_status := Some "OPERATIONAL";
     Place.opening_hours := Some {| Place.open_now := Some true; Place.periods := None |} |}.






(** ** Address parsing *)

(** Claim C9. A place whose formatted address is
    "Dorpsstraat 12, 1234 AB Voorbeeldstad, Netherlands" is converted to
    street address "Dorpsstraat 12", postal code "1234 AB" and city
    "Voorbeeldstad", whatever its name and other fields. *)
Theorem C9_address_example :
  forall (db : Db) (now : Z) (place : Place.t),
    Place.formatted_address place = "Dorpsstraat 12, 1234 AB Voorbeeldstad, Netherlands" ->
    let sm := convertToSupermarketData db now place in
    Supermarket.address sm = "Dorpsstraat 12"
    /\ Supermarket.postal_code sm = "1234 AB"
    /\ Supermarket.city sm = "Voorbeeldstad".
Proof.
  intros db now place Hfa sm.
  assert (E : parse_address place = ("Dorpsstraat 12", "Voorbeeldstad", "1234 AB")).
  { unfold parse_address. rewrite Hfa. vm_compute. reflexivity. }
  unfold sm, convertToSupermarketData. rewrite E. split; [|split]; reflexivity.
Qed.


(** ** Deduplication *)

Lemma dedup_loop_in seen rs r :
  In r (dedup_loop seen rs) -> In r rs /\ ~ In (dedup_key r) seen.
Proof.
  revert seen. induction rs as [|x rs IH]; intros seen; simpl; [contradiction|].
  destruct (existsb (String.eqb (dedup_key x)) seen) eqn:E.
  - intros H. apply IH in H as [H1 H2]. auto.
  - intros [<-|H].
    + split; [now left|]. intros Hin.
      apply Bool.not_true_iff_false in E. apply E, existsb_exists.
      exists (dedup_key x). split; [exact Hin|apply String.eqb_refl].
    + apply IH in H as [H1 H2]. split; [now right|]. intros Hin. apply H2. now right.
Qed.

Lemma dedup_loop_nodup seen rs : NoDup (map dedup_key (dedup_loop seen rs)).
Proof.
  revert seen. induction rs as [|x rs IH]; intros seen; simpl; [constructor|].
  destruct (existsb (String.eqb (dedup_key x)) seen); [apply IH|].
  simpl. constructor; [|apply IH].
  intros Hin. apply in_map_iff in Hin as [y [Hy Hin]].
  apply dedup_loop_in in Hin as [_ Hn]. apply Hn. rewrite Hy. now left.
Qed.

Lemma dedup_loop_keys seen rs k :
  In k (map dedup_key rs) -> In k seen \/ In k (map dedup_key (dedup_loop seen rs)).
Proof.
  revert seen. induction rs as [|x rs IH]; intros seen; simpl; [contradiction|].
  destruct (existsb (String.eqb (dedup_key x)) seen) eqn:E.
  - intros [<-|H].
    + left. apply existsb_exists in E as [k' [Hk' Eq]].
      apply String.eqb_eq in Eq. now subst.
    + now apply IH.
  - intros [<-|H]; [right; now left|].
    destruct (IH (dedup_key x :: seen) H) as [[<-|Hs]|Ho].
    + right. now left.
    + now left.
    + right. now right.
Qed.

Lemma dedup_loop_first seen rs r :
  In r (dedup_loop seen rs) ->
  find (fun x => String.eqb (dedup_key x) (dedup_key r)) rs = Some r.
Proof.
  revert seen. induction rs as [|x rs IH]; intros seen; simpl; [contradiction|].
  destruct (existsb (String.eqb (dedup_key x)) seen) eqn:E.
  - intros H. pose proof (dedup_loop_in _ _ _ H) as [_ Hn].
    destruct (String.eqb_spec (dedup_key x) (dedup_key r)) as [Eq|_].
    + exfalso. apply Hn. apply existsb_exists in E as [k' [Hk' Eq']].
      apply String.eqb_eq in Eq'. congruence.
    + eapply IH, H.
  - intros [<-|H]; [now rewrite String.eqb_refl|].
    pose proof (dedup_loop_in _ _ _ H) as [_ Hn].
    destruct (String.eqb_spec (dedup_key x) (dedup_key r)) as [Eq|_].
    + exfalso. apply Hn. rewrite <- Eq. now left.
    + eapply IH, H.
Qed.

Lemma nodup_map_filter {A B} (f : A -> B) (g : A -> bool) (l : list A) :
  NoDup (map f l) -> NoDup (map f (filter g l)).
Proof.
  induction l as [|x l IH]; simpl; [auto|]. intros H. inversion H as [|? ? Hn Hd]; subst.
  destruct (g x); simpl; [|now apply IH].
  constructor; [|now apply IH].
  intros Hin. apply Hn. apply in_map_iff in Hin as [y [Hy Hin]].
  apply filter_In in Hin as [Hin _]. rewrite <- Hy. now apply in_map.
Qed.

Lemma nodup_same_key_le1 {A B} (f : A -> B) (k : B) (l : list A) :
  NoDup (map f l) -> (forall x, In x l -> f x = k) -> (List.length l <= 1)%nat.
Proof.
  destruct l as [|a [|b l]]; simpl; intros Hd Hk; try lia.
  inversion Hd as [|? ? Hn _]; subst. exfalso. apply Hn.
  rewrite (Hk a (or_introl eq_refl)), (Hk b (or_intror (or_introl eq_refl))). now left.
Qed.

Definition c7_record (lat : Z) : Supermarket.t :=
  {| Supermarket.name := "Jumbo"; Supermarket.chain := "Jumbo";
     Supermarket.address := "Markt 1"; Supermarket.city := "Gouda";
     Supermarket.postal_code := "2801 JJ"; Supermarket.latitude := lat;
     Supermarket.longitude := 470000000; Supermarket.status := Open;
     Supermarket.google_place_id := None; Supermarket.opening_hours := None |}.

(** Claim C7, counterexample: two records without an external id that
    share name, address and city (but not coordinates) are both kept. *)
Lemma C7_same_name_address_city_both_kept :
  deduplicateResults [c7_record 5201000000; c7_record 5201000001]
  = [c7_record 5201000000; c7_record 5201000001].
Proof. vm_compute. reflexivity. Qed.

(** Claim C7 (amended). With the key of a record being its external id
    when that is non-empty, and otherwise the string
    name-latitude-longitude, [deduplicateResults] keeps exactly the first
    record of each key: its output keys are pairwise distinct, every
    input key is kept, every kept record is the first input record with
    its key; in particular two records sharing a non-empty external id
    give one output record. *)
Theorem C7_dedup_first_per_key :
  forall (results : list Supermarket.t),
    NoDup (map dedup_key (deduplicateResults results))
    /\ (forall k, In k (map dedup_key results) <->
                  In k (map dedup_key (deduplicateResults results)))
    /\ (forall r, In r (deduplicateResults results) ->
                  In r results
                  /\ find (fun x => String.eqb (dedup_key x) (dedup_key r)) results = Some r)
    /\ (forall p, p <> "" ->
                  (count (fun r => gpid_matches (Supermarket.google_place_id r) p)
                         (deduplicateResults results) <= 1)%nat).
Proof.
  intros results. unfold deduplicateResults.
  split; [apply dedup_loop_nodup|]. split; [|split].
  - intros k. split.
    + intros H. destruct (dedup_loop_keys [] results k H) as [[]|H']. exact H'.
    + intros H. apply in_map_iff in H as [r [<- Hr]].
      apply in_map. now apply (dedup_loop_in [] results r).
  - intros r Hr. split; [now apply (dedup_loop_in [] results r)|].
    now apply (dedup_loop_first []).
  - intros p Hp. unfold count.
    apply (nodup_same_key_le1 dedup_key p).
    + apply nodup_map_filter, dedup_loop_nodup.
    + intros r Hr. apply filter_In in Hr as [_ Hm]. unfold dedup_key.
      destruct (Supermarket.google_place_id r) as [q|]; [|discriminate].
      simpl in Hm. apply String.eqb_eq in Hm. subst q.
      apply String.eqb_neq in Hp. now rewrite Hp.
Qed.

(** ** Partial failure of the chain loop *)

(** What one chain contributes when its search succeeds, and nothing
    when it fails. *)
Definition chain_results (apiKey : option string) (fetch : string -> Response)
  (db : Db) (now : Z) (chain : string) : list Supermarket.t :=
  match searchPlacesByText apiKey fetch (chain ++ " supermarket Netherlands") with
  | SearchOk results =>
      map (convertToSupermarketData db now)
          (filter (fun place => isInNetherlands (Place.lat place) (Place.lng place)) results)
  | SearchErr _ => []
  end.

Definition chain_log (apiKey : option string) (fetch : string -> Response)
  (db : Db) (now : Z) (chain : string) : LogEntry :=
  match searchPlacesByText apiKey fetch (chain ++ " supermarket Netherlands") with
  | SearchOk results =>
      ChainFetched chain
        (List.length (filter (fun place => isInNetherlands (Place.lat place) (Place.lng place))
                             results))
  | SearchErr message => FetchFailed chain message
  end.

Lemma fetch_all_acc apiKey fetch db now chains acc log :
  fold_left (fetch_chain apiKey fetch db now) chains (acc, log) =
  ((acc ++ flat_map (chain_results apiKey fetch db now) chains)%list,
   (log ++ map (chain_log apiKey fetch db now) chains)%list).
Proof.
  revert acc log. induction chains as [|c chains IH]; intros acc log; simpl.
  - now rewrite !app_nil_r.
  - unfold fetch_chain at 1, chain_results at 1, chain_log at 1.
    destruct (searchPlacesByText apiKey fetch (c ++ " supermarket Netherlands")) as [rs|m].
    + rewrite IH, length_map. now rewrite <- !app_assoc.
    + rewrite IH. now rewrite <- !app_assoc.
Qed.

(** Claim C8. With the API key configured and the store reachable, a
    failing search only adds a [FetchFailed] entry to the log: the
    collected records are the concatenation, in chain order, of the
    (bounding-box filtered, converted) results of the successful
    searches, and the run goes on to deduplication and upsert whenever
    that list is non-empty; it never ends in [SyncFailed]. *)
Theorem C8_failed_search_skipped :
  forall (chains : list string) (apiKey : option string) (fetch : string -> Response)
         (db : Db) (now : Z),
    truthy apiKey = true ->
    db_up db = true ->
    fetch_all apiKey fetch db now chains =
      (flat_map (chain_results apiKey fetch db now) chains,
       map (chain_log apiKey fetch db now) chains)
    /\ syncSupermarkets_over chains apiKey fetch db now =
       match flat_map (chain_results apiKey fetch db now) chains with
       | [] => SyncNoData (map (chain_log apiKey fetch db now) chains)
       | allResults =>
           let '(db', totalInserted, totalUpdated) :=
             upsertSupermarkets db now (deduplicateResults allResults) in
           SyncDone db' totalInserted totalUpdated (map (chain_log apiKey fetch db now) chains)
       end.
Proof.
  intros chains apiKey fetch db now Hk Hup.
  assert (E : fetch_all apiKey fetch db now chains =
              (flat_map (chain_results apiKey fetch db now) chains,
               map (chain_log apiKey fetch db now) chains))
    by (unfold fetch_all; now rewrite fetch_all_acc).
  split; [exact E|].
  unfold syncSupermarkets_over. rewrite Hk, Hup. simpl. rewrite E.
  destruct (flat_map (chain_results apiKey fetch db now) chains); reflexivity.
Qed.

(** A Places API answering "Jumbo" with one place in the Netherlands and
    one outside it, and failing with OVER_QUERY_LIMIT for every other query. *)
Definition c8_fetch (query : string) : Response :=
  if String.eqb query "Jumbo supermarket Netherlands"
  then HttpResponse true "OK" (Some [c10_place;
         {| Place.place_id := Some "far"; Place.name := "Jumbo Oslo";
            Place.formatted_address := "Karl Johans gate 1, 0154 Oslo, Norway";
            Place.lat := 5991000000; Place.lng := 1075000000;
            Place.business_status := Some "OPERATIONAL"; Place.opening_hours := None |}])
  else HttpResponse true "OVER_QUERY_LIMIT" None.


(** ** Admin functions *)

Definition admin : Caller :=
  {| auth_role := Some "authenticated";
     user_metadata := Some [("role", "supermarket_admin")] |}.

(** An authenticated user whose [user_metadata] has no [role] key. *)
Definition plain_user : Caller :=
  {| auth_role := Some "authenticated"; user_metadata := Some [] |}.

Definition mk_incident (i : nat) (st : string) : Incident.t :=
  {| Incident.id := i; Incident.supermarket_id := 1; Incident.incident_type := "machine_full";
     Incident.status := Some st; Incident.admin_notes := None;
     Incident.created_at := 0; Incident.updated_at := 0 |}.

(** Three open incidents and one already resolved. *)
Definition c5_db : Db :=
  {| db_up := true; supermarkets := [c10_row];
     incidents := [mk_incident 1 "open"; mk_incident 2 "open"; mk_incident 3 "open";
                   mk_incident 4 "resolved"] |}.

(** Claim C5 (code defect). Bulk-resolving the three open incidents and
    the resolved one with note "fixed", as an admin, raises the trigger
    error [record "new" has no field "last_updated"]: the statement is
    rolled back, no incident is resolved and no count is returned. *)
Theorem C5_bulk_resolve_fails_on_trigger :
  bulk_resolve_incidents admin 5 c5_db [1; 2; 3; 4]%nat (Some "fixed")
  = (c5_db, PgErr (NoField "last_updated")).
Proof. vm_compute. reflexivity. Qed.

(** The row an [UPDATE ... SET status = 'resolved', admin_notes =
    COALESCE(admin_note, admin_notes), updated_at = NOW()] produces. *)
Definition resolve_row (now : Z) (incident_ids : list nat) (admin_note : option string)
  (i : Incident.t) : Incident.t :=
  if existsb (Nat.eqb (Incident.id i)) incident_ids
     && sql_neq (Incident.status i) "resolved"
  then {| Incident.id := Incident.id i;
          Incident.supermarket_id := Incident.supermarket_id i;
          Incident.incident_type := Incident.incident_type i;
          Incident.status := Some "resolved";
          Incident.admin_notes := match admin_note with
                                  | Some n => Some n
                                  | None => Incident.admin_notes i
                                  end;
          Incident.created_at := Incident.created_at i;
          Incident.updated_at := now |}
  else i.

(** Without the faulty trigger (a BEFORE UPDATE trigger that keeps the
    row), the [UPDATE] of [bulk_resolve_incidents] rewrites exactly the
    listed rows not yet resolved, and returns their number. *)
Lemma bulk_update_passthrough now incident_ids admin_note rows :
  bulk_update (fun _ i => PgOk i) now incident_ids admin_note rows
  = PgOk (map (resolve_row now incident_ids admin_note) rows,
          count (fun i => existsb (Nat.eqb (Incident.id i)) incident_ids
                          && sql_neq (Incident.status i) "resolved") rows).
Proof.
  induction rows as [|i rows IH]; simpl; [reflexivity|].
  rewrite IH. unfold count. simpl.
  destruct (existsb (Nat.eqb (Incident.id i)) incident_ids
            && sql_neq (Incident.status i) "resolved") eqn:E;
    unfold resolve_row; rewrite E; reflexivity.
Qed.

Lemma bulk_resolve_passthrough_admin now db incident_ids admin_note :
  bulk_resolve_with (fun _ i => PgOk i) admin now db incident_ids admin_note
  = ({| db_up := db_up db; supermarkets := supermarkets db;
        incidents := map (resolve_row now incident_ids admin_note) (incidents db) |},
     PgOk (count (fun i => existsb (Nat.eqb (Incident.id i)) incident_ids
                           && sql_neq (Incident.status i) "resolved")
                 (incidents db))).
Proof.
  unfold bulk_resolve_with. simpl. now rewrite bulk_update_passthrough.
Qed.

(** Claim C6 (code defect). For an authenticated caller without a role
    claim the admin check evaluates to NULL and does not raise:
    [get_admin_dashboard_stats] returns the counters and
    [bulk_resolve_incidents] is executed (here on an empty id list,
    answering 0) instead of failing with access denied. *)
Theorem C6_missing_role_claim_not_rejected :
  get_admin_dashboard_stats plain_user c5_db
  = PgOk {| total_supermarkets := 1; total_incidents := 4;
            active_incidents := 3; resolved_incidents := 1 |}
  /\ bulk_resolve_incidents plain_user 5 c5_db [] None = (c5_db, PgOk 0%nat).
Proof. split; vm_compute; reflexivity. Qed.

(** A mismatched role claim, or a caller that is not authenticated, is
    rejected before anything is read or written. *)
Lemma admin_check_rejects_mismatch c :
  (exists r, auth_role c = Some r /\ r <> "authenticated")
  \/ (exists r, role_claim c = Some r /\ r <> "supermarket_admin") ->
  raises_access_denied c = true.
Proof.
  unfold raises_access_denied, sql_and, sql_eq.
  intros [[r [Hr Hn]]|[r [Hr Hn]]]; rewrite Hr; simpl.
  - apply String.eqb_neq in Hn. rewrite Hn. reflexivity.
  - apply String.eqb_neq in Hn. rewrite Hn.
    destruct (auth_role c) as [a|]; simpl; [destruct (String.eqb a "authenticated")|];
      reflexivity.
Qed.

Lemma admin_entry_points_reject_mismatch c now db incident_ids admin_note :
  raises_access_denied c = true ->
  get_admin_dashboard_stats c db = PgErr AccessDenied
  /\ bulk_resolve_incidents c now db incident_ids admin_note = (db, PgErr AccessDenied).
Proof.
  intros H. unfold get_admin_dashboard_stats, bulk_resolve_incidents, bulk_resolve_with.
  now rewrite H.
Qed.

(** ** Idempotence of the upsert phase *)

Definition empty_db : Db := {| db_up := true; supermarkets := []; incidents := [] |}.

(** Claim C2, counterexample: a record without an external id is inserted
    again by the second run, which leaves two rows where the first run
    left one. *)
Lemma C2_record_without_place_id_duplicated :
  List.length (supermarkets (upsert_db empty_db 1 [c7_record 5201000000])) = 1%nat
  /\ List.length (supermarkets (upsert_db (upsert_db empty_db 1 [c7_record 5201000000])
                                          2 [c7_record 5201000000])) = 2%nat.
Proof. split; vm_compute; reflexivity. Qed.

(** *** Generic list and map facts *)

Lemma find_map_pres {A} (P : A -> bool) (f : A -> A) (l : list A) :
  (forall x, In x l -> P (f x) = P x) -> find P (map f l) = option_map f (find P l).
Proof.
  intros H. induction l as [|x l IH]; simpl; [reflexivity|].
  rewrite (H x (or_introl eq_refl)). destruct (P x); [reflexivity|].
  apply IH. intros y Hy. apply H. now right.
Qed.

Lemma find_map_comp {A B} (P : B -> bool) (f : A -> B) (l : list A) :
  find P (map f l) = option_map f (find (fun x => P (f x)) l).
Proof.
  induction l as [|x l IH]; simpl; [reflexivity|]. destruct (P (f x)); [reflexivity|exact IH].
Qed.

Lemma find_app' {A} (P : A -> bool) (l1 l2 : list A) :
  find P (l1 ++ l2) = match find P l1 with Some x => Some x | None => find P l2 end.
Proof. induction l1 as [|x l1 IH]; simpl; [reflexivity|]. destruct (P x); [reflexivity|exact IH]. Qed.

Lemma map_get_set {V} k k' (v : V) m :
  map_get k (map_set k' v m) = if String.eqb k k' then Some v else map_get k m.
Proof.
  induction m as [|[k0 v0] m IH]; simpl.
  - destruct (String.eqb k k'); reflexivity.
  - destruct (String.eqb_spec k' k0) as [<-|Hne]; simpl.
    + destruct (String.eqb k k'); reflexivity.
    + rewrite IH. destruct (String.eqb_spec k k') as [->|Hk]; [|reflexivity].
      apply String.eqb_neq in Hne. now rewrite Hne.
Qed.

Lemma has_dup_false_NoDup l : has_dup l = false -> NoDup l.
Proof.
  induction l as [|x l IH]; simpl; intros H; [constructor|].
  apply orb_false_iff in H as [H1 H2]. constructor; [|now apply IH].
  intros Hin. apply Bool.not_true_iff_false in H1. apply H1, existsb_exists.
  exists x. split; [exact Hin|apply String.eqb_refl].
Qed.

Lemma NoDup_has_dup_false l : NoDup l -> has_dup l = false.
Proof.
  induction 1 as [|x l Hn Hd IH]; simpl; [reflexivity|].
  rewrite IH, orb_false_r. apply Bool.not_true_iff_false. intros He.
  apply existsb_exists in He as [y [Hy Eq]]. apply String.eqb_eq in Eq. subst. contradiction.
Qed.

Lemma nodup_map_eq {A B} (f : A -> B) (l : list A) x y :
  NoDup (map f l) -> In x l -> In y l -> f x = f y -> x = y.
Proof.
  induction l as [|a l IH]; simpl; [contradiction|]. intros Hd Hx Hy Hf.
  inversion Hd as [|? ? Hn Hd']; subst.
  destruct Hx as [<-|Hx], Hy as [<-|Hy]; auto.
  - exfalso. apply Hn. rewrite Hf. now apply in_map.
  - exfalso. apply Hn. rewrite <- Hf. now apply in_map.
Qed.

(** *** Batching *)

Lemma batches_aux_cons fuel x l :
  batches_aux (S fuel) (x :: l)
  = firstn batchSize (x :: l) :: batches_aux fuel (skipn batchSize (x :: l)).
Proof. reflexivity. Qed.

Lemma concat_batches_aux fuel l :
  (List.length l <= fuel)%nat -> concat (batches_aux fuel l) = l.
Proof.
  revert l. induction fuel as [|fuel IH]; intros l Hl.
  - destruct l; [reflexivity|simpl in Hl; lia].
  - destruct l as [|x l']; [reflexivity|].
    rewrite batches_aux_cons. cbn [concat]. rewrite IH; [apply firstn_skipn|].
    rewrite length_skipn. simpl in Hl |- *. unfold batchSize. lia.
Qed.

Lemma concat_batches l : concat (batches l) = l.
Proof. apply concat_batches_aux. lia. Qed.

(** *** The store side of one batch *)

Definition new_records (db : Db) (batch : list Supermarket.t) : list Supermarket.t :=
  let existing := find_existing db batch in
  filter (fun sm => match existing_get existing sm with
                    | Some _ => false | None => true end) batch.

Definition update_records (db : Db) (batch : list Supermarket.t)
  : list (nat * Supermarket.t) :=
  let existing := find_existing db batch in
  flat_map (fun sm => match existing_get existing sm with
                      | Some r => [(Supermarket.id r, sm)]
                      | None => [] end) batch.

Definition after_insert (db : Db) (now : Z) (newRecords : list Supermarket.t) : Db :=
  match newRecords with
  | [] => db
  | _ => match insert_rows db now newRecords with Some db' => db' | None => db end
  end.

Definition apply_updates (now : Z) (ups : list (nat * Supermarket.t)) (db : Db) : Db :=
  fold_left (fun db '(rid, sm) =>
               match update_row db now rid sm with Some db' => db' | None => db end) ups db.

Definition batch_db (now : Z) (db : Db) (batch : list Supermarket.t) : Db :=
  apply_updates now (update_records db batch)
                (after_insert db now (new_records db batch)).

Lemma apply_updates_counters now ups db (ti tu : nat) :
  fst (fst (fold_left (fun '((db, ti), tu) '(rid, sm) =>
                         match update_row db now rid sm with
                         | Some db' => (db', ti, S tu)
                         | None => (db, ti, tu)
                         end) ups (db, ti, tu)))
  = apply_updates now ups db.
Proof.
  unfold apply_updates. revert db ti tu.
  induction ups as [|[rid sm] ups IH]; intros db ti tu; simpl; [reflexivity|].
  destruct (update_row db now rid sm); apply IH.
Qed.

Lemma process_batch_db now db ti tu batch :
  fst (fst (process_batch now (db, ti, tu) batch)) = batch_db now db batch.
Proof.
  unfold process_batch, batch_db, after_insert, new_records, update_records.
  destruct (filter _ batch) as [|x xs].
  - apply apply_updates_counters.
  - destruct (insert_rows db now (x :: xs)); apply apply_updates_counters.
Qed.

Lemma fold_process_batch_db now bs db ti tu :
  fst (fst (fold_left (process_batch now) bs (db, ti, tu))) = fold_left (batch_db now) bs db.
Proof.
  revert db ti tu. induction bs as [|b bs IH]; intros db ti tu; cbn [fold_left]; [reflexivity|].
  rewrite <- (process_batch_db now db ti tu b).
  destruct (process_batch now (db, ti, tu) b) as [[db' ti'] tu']. apply IH.
Qed.

Lemma upsert_db_fold db now l :
  upsert_db db now l = fold_left (batch_db now) (batches l) db.
Proof. apply fold_process_batch_db. Qed.

(** *** Lookups by place id *)

Definition row_has (p : string) (r : Supermarket.row) : bool :=
  gpid_matches (Supermarket.google_place_id (Supermarket.data r)) p.

Definition first_row (db : Db) (p : string) : option Supermarket.row :=
  find (row_has p) (supermarkets db).

(** The row found by place id carries the record's data. *)
Definition synced (db : Db) (sm : Supermarket.t) : Prop :=
  exists p r, Supermarket.google_place_id sm = Some p /\ first_row db p = Some r
              /\ Supermarket.data r = sm.

(** The primary key [id] of [supermarkets]. *)
Definition pk_ok (db : Db) : Prop := NoDup (map Supermarket.id (supermarkets db)).

Definition has_place_id (sm : Supermarket.t) : Prop :=
  exists p, Supermarket.google_place_id sm = Some p /\ p <> "".

Lemma existing_step_get db m sm k :
  map_get k (existing_step db m sm)
  = if str_is (Supermarket.google_place_id sm) k && negb (String.eqb k "")
    then match select_by_place_id db k with Some r => Some r | None => map_get k m end
    else map_get k m.
Proof.
  unfold existing_step. destruct (Supermarket.google_place_id sm) as [q|]; simpl; [|reflexivity].
  destruct (String.eqb_spec q "") as [->|Hq].
  - destruct (String.eqb_spec "" k) as [<-|_]; reflexivity.
  - destruct (String.eqb_spec q k) as [<-|Hk].
    + apply String.eqb_neq in Hq. rewrite Hq. simpl.
      destruct (select_by_place_id db q); [|reflexivity].
      rewrite map_get_set, String.eqb_refl. reflexivity.
    + destruct (select_by_place_id db q); [|reflexivity].
      rewrite map_get_set. destruct (String.eqb_spec k q); [congruence|reflexivity].
Qed.

Lemma find_existing_fold db batch m k :
  map_get k (fold_left (existing_step db) batch m)
  = if existsb (fun sm => str_is (Supermarket.google_place_id sm) k && negb (String.eqb k ""))
               batch
    then match select_by_place_id db k with Some r => Some r | None => map_get k m end
    else map_get k m.
Proof.
  revert m. induction batch as [|sm batch IH]; intros m; simpl; [reflexivity|].
  rewrite IH, existing_step_get.
  destruct (str_is (Supermarket.google_place_id sm) k && negb (String.eqb k "")); simpl.
  - destruct (existsb _ batch), (select_by_place_id db k); reflexivity.
  - reflexivity.
Qed.

(** For a record with a non-empty place id, [existingRecords.get] answers
    the row the lookup query returned. *)
Lemma existing_get_find db batch sm p :
  In sm batch -> Supermarket.google_place_id sm = Some p -> p <> "" ->
  existing_get (find_existing db batch) sm = select_by_place_id db p.
Proof.
  intros Hin Hp Hne. unfold existing_get, find_existing. rewrite Hp, find_existing_fold.
  replace (existsb _ batch) with true.
  - destruct (select_by_place_id db p); reflexivity.
  - symmetry. apply existsb_exists. exists sm. split; [exact Hin|].
    rewrite Hp. simpl. rewrite String.eqb_refl. apply String.eqb_neq in Hne. now rewrite Hne.
Qed.

Lemma select_first_row db p : db_up db = true -> select_by_place_id db p = first_row db p.
Proof. intros H. unfold select_by_place_id. now rewrite H. Qed.

(** *** Place ids of a list of records *)

Lemma In_place_ids p l :
  In p (place_ids l) <-> exists sm, In sm l /\ Supermarket.google_place_id sm = Some p.
Proof.
  unfold place_ids. rewrite in_flat_map. split.
  - intros [sm [Hin Hp]]. exists sm. split; [exact Hin|].
    destruct (Supermarket.google_place_id sm); simpl in Hp; [|contradiction].
    destruct Hp as [<-|[]]. reflexivity.
  - intros [sm [Hin Hp]]. exists sm. split; [exact Hin|]. rewrite Hp. now left.
Qed.

Lemma place_ids_cons sm l :
  place_ids (sm :: l) = match Supermarket.google_place_id sm with
                        | Some p => p :: place_ids l | None => place_ids l end.
Proof. unfold place_ids. simpl. destruct (Supermarket.google_place_id sm); reflexivity. Qed.

Lemma NoDup_place_ids_filter (f : Supermarket.t -> bool) l :
  NoDup (place_ids l) -> NoDup (place_ids (filter f l)).
Proof.
  induction l as [|sm l IH]; cbn [filter]; [auto|]. rewrite place_ids_cons. intros Hd.
  destruct (f sm); [rewrite place_ids_cons|];
    destruct (Supermarket.google_place_id sm) as [p|] eqn:Ep; auto.
  - inversion Hd as [|? ? Hn Hd']; subst. constructor; [|now apply IH].
    intros Hin. apply Hn. apply In_place_ids in Hin as [x [Hx Hxp]].
    apply filter_In in Hx as [Hx _]. apply In_place_ids. eauto.
  - inversion Hd; subst. now apply IH.
Qed.

Definition pid_is (p : string) (d : Supermarket.t) : bool :=
  gpid_matches (Supermarket.google_place_id d) p.

Lemma find_pid_unique l sm p :
  In sm l -> Supermarket.google_place_id sm = Some p -> NoDup (place_ids l) ->
  find (pid_is p) l = Some sm.
Proof.
  induction l as [|x l IH]; cbn [find In]; [contradiction|]. rewrite place_ids_cons.
  intros Hin Hp Hd. unfold pid_is at 1.
  destruct (Supermarket.google_place_id x) as [q|] eqn:Eq; simpl.
  - inversion Hd as [|? ? Hn Hd']; subst.
    destruct (String.eqb_spec q p) as [->|Hqp].
    + destruct Hin as [->|Hin]; [reflexivity|].
      exfalso. apply Hn. apply In_place_ids. eauto.
    + destruct Hin as [->|Hin]; [congruence|]. now apply IH.
  - destruct Hin as [->|Hin]; [congruence|]. now apply IH.
Qed.

Lemma find_pid_none l p : ~ In p (place_ids l) -> find (pid_is p) l = None.
Proof.
  intros Hn. destruct (find (pid_is p) l) as [x|] eqn:E; [|reflexivity].
  exfalso. apply find_some in E as [Hx Hpx]. apply Hn, In_place_ids. exists x.
  split; [exact Hx|]. unfold pid_is, gpid_matches in Hpx.
  destruct (Supermarket.google_place_id x) as [q|]; [|discriminate].
  apply String.eqb_eq in Hpx. now subst.
Qed.

Lemma first_row_data db p :
  option_map Supermarket.data (first_row db p)
  = find (pid_is p) (map Supermarket.data (supermarkets db)).
Proof. unfold first_row. rewrite find_map_comp. reflexivity. Qed.

Lemma row_has_some p r :
  row_has p r = true -> Supermarket.google_place_id (Supermarket.data r) = Some p.
Proof.
  unfold row_has, gpid_matches. destruct (Supermarket.google_place_id (Supermarket.data r));
    [|discriminate]. intros H. apply String.eqb_eq in H. now subst.
Qed.

Lemma max_id_ge rows r : In r rows -> (Supermarket.id r <= max_id rows)%nat.
Proof.
  induction rows as [|x rows IH]; simpl; [contradiction|].
  intros [->|H]; [lia|]. specialize (IH H). lia.
Qed.

(** *** One update by primary key *)

Definition upd_row (now : Z) (rid : nat) (sm : Supermarket.t) (r : Supermarket.row)
  : Supermarket.row :=
  if Nat.eqb (Supermarket.id r) rid
  then {| Supermarket.id := Supermarket.id r; Supermarket.data := sm;
          Supermarket.last_updated := now; Supermarket.created_at := Supermarket.created_at r |}
  else r.

Lemma update_row_eq db now rid sm :
  db_up db = true ->
  update_row db now rid sm = Some {| db_up := db_up db;
                                     supermarkets := map (upd_row now rid sm) (supermarkets db);
                                     incidents := incidents db |}.
Proof. intros H. unfold update_row. rewrite H. reflexivity. Qed.

Lemma NoDup_map_inj_in {A B} (f : A -> B) (l : list A) x y :
  NoDup (map f l) -> In x l -> In y l -> f x = f y -> x = y.
Proof.
  induction l as [|a l IH]; simpl; [contradiction|]. intros Hd Hx Hy Hf.
  inversion Hd as [|? ? Hn Hd']; subst.
  destruct Hx as [->|Hx], Hy as [->|Hy]; auto.
  - exfalso. apply Hn. rewrite Hf. now apply in_map.
  - exfalso. apply Hn. rewrite <- Hf. now apply in_map.
Qed.

Lemma upd_row_id now rid sm r : Supermarket.id (upd_row now rid sm r) = Supermarket.id r.
Proof. unfold upd_row. destruct (Nat.eqb _ _); reflexivity. Qed.

Lemma map_upd_row_ids now rid sm rows :
  map Supermarket.id (map (upd_row now rid sm) rows) = map Supermarket.id rows.
Proof. rewrite map_map. apply map_ext. apply upd_row_id. Qed.

(** Updating the row found by place id [p] with a record carrying [p]
    makes that row carry the record and leaves every other lookup alone. *)
Lemma update_first_row db now r p sm :
  db_up db = true -> pk_ok db -> first_row db p = Some r ->
  Supermarket.google_place_id sm = Some p ->
  let db' := {| db_up := db_up db;
                supermarkets := map (upd_row now (Supermarket.id r) sm) (supermarkets db);
                incidents := incidents db |} in
  pk_ok db' /\
  (exists r', first_row db' p = Some r' /\ Supermarket.data r' = sm) /\
  (forall q, q <> p -> first_row db' q = first_row db q).
Proof.
  intros Hup Hpk Hr Hsp db'. unfold first_row in Hr. pose proof Hr as Hf.
  apply find_some in Hr as [Hrin Hrp]. apply row_has_some in Hrp.
  assert (Hsame : forall x, In x (supermarkets db) -> Supermarket.id x = Supermarket.id r -> x = r).
  { intros x Hx Hid. exact (NoDup_map_inj_in _ _ _ _ Hpk Hx Hrin Hid). }
  assert (Hpres : forall q x, In x (supermarkets db) ->
            row_has q (upd_row now (Supermarket.id r) sm x) = row_has q x).
  { intros q x Hx. unfold upd_row. destruct (Nat.eqb_spec (Supermarket.id x) (Supermarket.id r)) as [E|E];
      [|reflexivity].
    rewrite (Hsame x Hx E). unfold row_has. simpl. now rewrite Hsp, Hrp. }
  split; [|split].
  - unfold pk_ok, db'. simpl. now rewrite map_upd_row_ids.
  - unfold first_row, db'. simpl. rewrite find_map_pres by apply Hpres.
    rewrite Hf. simpl. eexists; split; [reflexivity|].
    unfold upd_row. now rewrite Nat.eqb_refl.
  - intros q Hq. unfold first_row, db'. simpl. rewrite find_map_pres by apply Hpres.
    destruct (find (row_has q) (supermarkets db)) as [y|] eqn:Ey; [|reflexivity].
    simpl. f_equal. unfold upd_row.
    destruct (Nat.eqb_spec (Supermarket.id y) (Supermarket.id r)) as [E|E]; [|reflexivity].
    exfalso. apply find_some in Ey as [Hy Hyq]. rewrite (Hsame y Hy E) in Hyq.
    apply row_has_some in Hyq. congruence.
Qed.

(** *** A run of updates *)

Definition up_pids (ups : list (nat * Supermarket.t)) : list (option string) :=
  map (fun u => Supermarket.google_place_id (snd u)) ups.

Lemma apply_updates_cons now rid sm ups db :
  apply_updates now ((rid, sm) :: ups) db
  = apply_updates now ups (match update_row db now rid sm with Some db' => db' | None => db end).
Proof. reflexivity. Qed.

(** Updates addressed to the rows found by distinct place ids make each
    found row carry its record and leave the other lookups alone. *)
Lemma apply_updates_run1 now ups db :
  db_up db = true -> pk_ok db -> NoDup (up_pids ups) ->
  (forall rid sm, In (rid, sm) ups -> exists p r, Supermarket.google_place_id sm = Some p
                   /\ first_row db p = Some r /\ Supermarket.id r = rid) ->
  let d := apply_updates now ups db in
  db_up d = true /\ pk_ok d /\
  (forall rid sm, In (rid, sm) ups -> synced d sm) /\
  (forall p, ~ In (Some p) (up_pids ups) -> first_row d p = first_row db p).
Proof.
  revert db. induction ups as [|[rid sm] ups IH]; intros db Hup Hpk Hd Hups d.
  - subst d. repeat split; auto. intros ? ? [].
  - subst d. rewrite apply_updates_cons.
    destruct (Hups rid sm (or_introl eq_refl)) as [p [r [Hsp [Hr Hid]]]]. subst rid.
    rewrite (update_row_eq _ _ _ _ Hup).
    destruct (update_first_row db now r p sm Hup Hpk Hr Hsp) as [Hpk1 [[r' [Hr' Hdr']] Hoth]].
    set (db1 := {| db_up := db_up db; supermarkets := _; incidents := _ |}) in *.
    apply NoDup_cons_iff in Hd as [Hn Hd']. cbn [snd] in Hn. rewrite Hsp in Hn.
    assert (Hups' : forall rid' sm', In (rid', sm') ups -> exists p' r0,
               Supermarket.google_place_id sm' = Some p' /\ first_row db1 p' = Some r0
               /\ Supermarket.id r0 = rid').
    { intros rid' sm' Hin. destruct (Hups rid' sm' (or_intror Hin)) as [p' [r0 [H1 [H2 H3]]]].
      exists p', r0. split; [exact H1|]. split; [|exact H3]. rewrite Hoth; [exact H2|].
      intros ->. apply Hn. unfold up_pids. rewrite <- H1. now apply (in_map (fun u => _ (snd u)) ups (rid', sm')). }
    destruct (IH db1 Hup Hpk1 Hd' Hups') as [Hup2 [Hpk2 [Hsy2 Hfr2]]].
    split; [exact Hup2|]. split; [exact Hpk2|]. split.
    + intros rid' sm' [E|Hin]; [|now apply Hsy2 with rid'].
      injection E as <- <-. exists p, r'. split; [exact Hsp|]. split; [|exact Hdr'].
      rewrite Hfr2; [exact Hr'|]. exact Hn.
    + intros q Hq. cbn [up_pids map snd] in Hq. rewrite Hfr2.
      * apply Hoth. intros ->. apply Hq. left. now rewrite Hsp.
      * intros Hin. apply Hq. now right.
Qed.

Lemma upd_row_erase now rid sm x :
  (Supermarket.id x = rid -> Supermarket.data x = sm) ->
  erase_row (upd_row now rid sm x) = erase_row x /\
  Supermarket.data (upd_row now rid sm x) = Supermarket.data x.
Proof.
  intros H. unfold upd_row. destruct (Nat.eqb_spec (Supermarket.id x) rid) as [E|E]; [|auto].
  rewrite <- (H E). unfold erase_row. simpl. auto.
Qed.

(** Updates that write back the data a row already holds change nothing
    but [last_updated]. *)
Lemma apply_updates_run2 now ups db :
  db_up db = true ->
  (forall rid sm x, In (rid, sm) ups -> In x (supermarkets db) ->
                    Supermarket.id x = rid -> Supermarket.data x = sm) ->
  erase_db (apply_updates now ups db) = erase_db db.
Proof.
  revert db. induction ups as [|[rid sm] ups IH]; intros db Hup Hups; [reflexivity|].
  rewrite apply_updates_cons, (update_row_eq _ _ _ _ Hup).
  assert (Hx : forall x, In x (supermarkets db) ->
             erase_row (upd_row now rid sm x) = erase_row x /\
             Supermarket.data (upd_row now rid sm x) = Supermarket.data x).
  { intros x Hin. apply upd_row_erase. intros E. exact (Hups rid sm x (or_introl eq_refl) Hin E). }
  rewrite IH.
  - unfold erase_db. simpl. f_equal. rewrite map_map. apply map_ext_in.
    intros x Hin. apply (Hx x Hin).
  - exact Hup.
  - intros rid' sm' x' Hin Hx' Hid. simpl in Hx'. apply in_map_iff in Hx' as [x [<- Hxin]].
    rewrite (proj2 (Hx x Hxin)). rewrite upd_row_id in Hid.
    exact (Hups rid' sm' x (or_intror Hin) Hxin Hid).
Qed.

(** *** One insert of new records *)

Definition mk_row (base : nat) (now : Z) (ks : nat * Supermarket.t) : Supermarket.row :=
  let '(k, sm) := ks in
  {| Supermarket.id := (base + k)%nat; Supermarket.data := sm;
     Supermarket.last_updated := now; Supermarket.created_at := now |}.

Lemma mk_rows_ids base now l k :
  map Supermarket.id (map (mk_row base now) (combine (seq k (List.length l)) l))
  = seq (base + k) (List.length l).
Proof.
  revert k. induction l as [|sm l IH]; intros k; simpl; [reflexivity|].
  f_equal. rewrite IH. f_equal. lia.
Qed.

Lemma mk_rows_data base now l k :
  map Supermarket.data (map (mk_row base now) (combine (seq k (List.length l)) l)) = l.
Proof.
  revert k. induction l as [|sm l IH]; intros k; simpl; [reflexivity|]. now rewrite IH.
Qed.

Lemma in_place_ids_find p l : In p (place_ids l) -> find (pid_is p) l <> None.
Proof.
  intros Hin E. apply In_place_ids in Hin as [x [Hx Hxp]].
  pose proof (find_none _ _ E x Hx) as F. unfold pid_is, gpid_matches in F.
  rewrite Hxp, String.eqb_refl in F. discriminate.
Qed.

Lemma find_row_has_data p rows :
  option_map Supermarket.data (find (row_has p) rows)
  = find (pid_is p) (map Supermarket.data rows).
Proof. rewrite find_map_comp. reflexivity. Qed.

(** Inserting records whose place ids are new and distinct succeeds, makes
    each one found by its place id, and keeps every earlier lookup. *)
Lemma insert_rows_spec db now l :
  db_up db = true -> pk_ok db ->
  (forall sm, In sm l -> exists p, Supermarket.google_place_id sm = Some p /\ first_row db p = None) ->
  NoDup (place_ids l) ->
  exists d, insert_rows db now l = Some d /\ db_up d = true /\ pk_ok d /\
   (forall q r, first_row db q = Some r -> first_row d q = Some r) /\
   (forall sm, In sm l -> synced d sm) /\
   (forall q, ~ In q (place_ids l) -> first_row d q = first_row db q).
Proof.
  intros Hup Hpk Hnew Hnd.
  assert (Hv : insert_violates db l = false).
  { unfold insert_violates. rewrite (NoDup_has_dup_false _ Hnd), orb_false_r.
    destruct (existsb _ _) eqn:E; [|reflexivity]. exfalso.
    apply existsb_exists in E as [p [Hp Hst]]. apply existsb_exists in Hst as [q [Hq Epq]].
    apply String.eqb_eq in Epq. subst q.
    apply In_place_ids in Hp as [sm [Hsm Hsp]]. destruct (Hnew sm Hsm) as [p' [Hsp' Hnone]].
    rewrite Hsp in Hsp'. injection Hsp' as <-.
    apply (in_place_ids_find p (map Supermarket.data (supermarkets db)) Hq).
    now rewrite <- first_row_data, Hnone. }
  unfold insert_rows. rewrite Hup, Hv. simpl.
  set (base := S (max_id (supermarkets db))).
  set (nr := map _ (combine (seq 0 (List.length l)) l)).
  assert (Enr : nr = map (mk_row base now) (combine (seq 0 (List.length l)) l)).
  { subst nr. apply map_ext. intros [k sm]. reflexivity. }
  assert (Hdata : map Supermarket.data nr = l) by (rewrite Enr; apply mk_rows_data).
  assert (Hfr : forall q, first_row {| db_up := true; supermarkets := supermarkets db ++ nr;
                                        incidents := incidents db |} q
                = match first_row db q with Some r => Some r | None => find (row_has q) nr end).
  { intros q. unfold first_row. simpl. apply find_app'. }
  eexists; split; [reflexivity|]. split; [reflexivity|]. split; [|split; [|split]].
  - unfold pk_ok. simpl. rewrite map_app. apply NoDup_app.
    + exact Hpk.
    + rewrite Enr, mk_rows_ids. apply seq_NoDup.
    + intros i Hi Hi'. rewrite Enr, mk_rows_ids, in_seq in Hi'.
      apply in_map_iff in Hi as [x [<- Hx]]. apply max_id_ge in Hx. subst base. lia.
  - intros q r Hr. rewrite Hfr, Hr. reflexivity.
  - intros sm Hsm. destruct (Hnew sm Hsm) as [p [Hsp Hnone]].
    pose proof (find_row_has_data p nr) as Hd. rewrite Hdata in Hd.
    rewrite (find_pid_unique l sm p Hsm Hsp Hnd) in Hd.
    destruct (find (row_has p) nr) as [r|] eqn:Er; [|discriminate].
    injection Hd as Hd. exists p, r. split; [exact Hsp|]. split; [|exact Hd].
    rewrite Hfr, Hnone. exact Er.
  - intros q Hq. rewrite Hfr. destruct (first_row db q) as [r|]; [reflexivity|].
    pose proof (find_row_has_data q nr) as Hd. rewrite Hdata, (find_pid_none l q Hq) in Hd.
    destruct (find (row_has q) nr); [discriminate|reflexivity].
Qed.

(** *** A whole batch, first run *)

Lemma after_insert_spec db now l :
  db_up db = true -> pk_ok db ->
  (forall sm, In sm l -> exists p, Supermarket.google_place_id sm = Some p /\ first_row db p = None) ->
  NoDup (place_ids l) ->
  let d := after_insert db now l in
  db_up d = true /\ pk_ok d /\
  (forall q r, first_row db q = Some r -> first_row d q = Some r) /\
  (forall sm, In sm l -> synced d sm) /\
  (forall q, ~ In q (place_ids l) -> first_row d q = first_row db q).
Proof.
  intros Hup Hpk Hnew Hnd d. subst d. unfold after_insert. destruct l as [|sm0 l0].
  - repeat split; auto. intros ? [].
  - destruct (insert_rows_spec db now (sm0 :: l0) Hup Hpk Hnew Hnd) as [d [-> H]]. exact H.
Qed.

Lemma synced_keep d1 d sm p :
  synced d1 sm -> Supermarket.google_place_id sm = Some p -> first_row d p = first_row d1 p ->
  synced d sm.
Proof.
  intros [p' [r [Hp' [Hr Hd]]]] Hp E. rewrite Hp in Hp'. injection Hp' as <-.
  exists p, r. rewrite E. auto.
Qed.

Definition upd_of (existing : list (string * Supermarket.row)) (sm : Supermarket.t)
  : list (nat * Supermarket.t) :=
  match existing_get existing sm with
  | Some r => [(Supermarket.id r, sm)]
  | None => []
  end.

Lemma update_records_eq db batch :
  update_records db batch = flat_map (upd_of (find_existing db batch)) batch.
Proof. reflexivity. Qed.

Lemma in_upd_of E l rid sm :
  In (rid, sm) (flat_map (upd_of E) l) ->
  In sm l /\ exists r, existing_get E sm = Some r /\ Supermarket.id r = rid.
Proof.
  intros H. apply in_flat_map in H as [x [Hx Hu]]. unfold upd_of in Hu.
  destruct (existing_get E x) as [r|] eqn:Er; [|contradiction].
  destruct Hu as [Hu|[]]. injection Hu as <- <-. eauto.
Qed.

Lemma upd_of_pids E l :
  NoDup (place_ids l) -> NoDup (up_pids (flat_map (upd_of E) l)).
Proof.
  induction l as [|sm l IH]; cbn [flat_map]; [constructor|]. rewrite place_ids_cons. intros Hd.
  assert (Hl : NoDup (place_ids l)) by
    (destruct (Supermarket.google_place_id sm); [now apply NoDup_cons_iff in Hd|exact Hd]).
  unfold upd_of at 1. destruct (existing_get E sm) as [r|] eqn:Er; [|now apply IH].
  cbn [app up_pids map snd]. constructor; [|now apply IH].
  unfold existing_get in Er. destruct (Supermarket.google_place_id sm) as [p|] eqn:Ep; [|discriminate].
  apply NoDup_cons_iff in Hd as [Hn _]. intros Hin. apply Hn.
  unfold up_pids in Hin. apply in_map_iff in Hin as [[rid x] [Hx Hin]]. cbn [snd] in Hx.
  apply in_upd_of in Hin as [Hxl _]. apply In_place_ids. eauto.
Qed.

Lemma pid_unique l a b p :
  NoDup (place_ids l) -> In a l -> In b l ->
  Supermarket.google_place_id a = Some p -> Supermarket.google_place_id b = Some p -> a = b.
Proof.
  intros Hd Ha Hb Hpa Hpb. pose proof (find_pid_unique l a p Ha Hpa Hd) as E1.
  rewrite (find_pid_unique l b p Hb Hpb Hd) in E1. congruence.
Qed.

Lemma existing_get_first db batch sm :
  db_up db = true -> In sm batch -> has_place_id sm ->
  exists p, Supermarket.google_place_id sm = Some p /\
            existing_get (find_existing db batch) sm = first_row db p.
Proof.
  intros Hup Hin [p [Hp Hne]]. exists p. split; [exact Hp|].
  rewrite (existing_get_find db batch sm p Hin Hp Hne). now apply select_first_row.
Qed.

(** After one batch every record of the batch is found by its place id,
    and lookups of place ids outside the batch are unchanged. *)
Lemma batch_run1 now db batch :
  db_up db = true -> pk_ok db -> Forall has_place_id batch -> NoDup (place_ids batch) ->
  let d := batch_db now db batch in
  db_up d = true /\ pk_ok d /\
  (forall sm, In sm batch -> synced d sm) /\
  (forall q, ~ In q (place_ids batch) -> first_row d q = first_row db q).
Proof.
  intros Hup Hpk Hall Hnd d. subst d. unfold batch_db. rewrite update_records_eq.
  set (E := find_existing db batch).
  set (nw := new_records db batch).
  set (ups := flat_map (upd_of E) batch).
  rewrite Forall_forall in Hall.
  assert (Hnw : forall sm, In sm nw <-> In sm batch /\ existing_get E sm = None).
  { intros sm. unfold nw, new_records. fold E. rewrite filter_In.
    destruct (existing_get E sm); intuition congruence. }
  assert (Hnew : forall sm, In sm nw ->
            exists p, Supermarket.google_place_id sm = Some p /\ first_row db p = None).
  { intros sm Hsm. apply Hnw in Hsm as [Hin Hnone].
    destruct (existing_get_first db batch sm Hup Hin (Hall sm Hin)) as [p [Hp Ep]].
    exists p. split; [exact Hp|]. fold E in Ep. congruence. }
  assert (Hndn : NoDup (place_ids nw)) by (apply NoDup_place_ids_filter; exact Hnd).
  destruct (after_insert_spec db now nw Hup Hpk Hnew Hndn)
    as [Hup1 [Hpk1 [Hkeep1 [Hsy1 Hout1]]]].
  set (d1 := after_insert db now nw) in *.
  assert (Hups : forall rid sm, In (rid, sm) ups -> exists p r,
             Supermarket.google_place_id sm = Some p /\ first_row d1 p = Some r
             /\ Supermarket.id r = rid).
  { intros rid sm Hin. apply in_upd_of in Hin as [Hin [r [Er Hid]]].
    destruct (existing_get_first db batch sm Hup Hin (Hall sm Hin)) as [p [Hp Ep]].
    fold E in Ep. rewrite Er in Ep. exists p, r. split; [exact Hp|]. split; [|exact Hid].
    apply Hkeep1. congruence. }
  destruct (apply_updates_run1 now ups d1 Hup1 Hpk1 (upd_of_pids E batch Hnd) Hups)
    as [Hup2 [Hpk2 [Hsy2 Hout2]]].
  split; [exact Hup2|]. split; [exact Hpk2|]. split.
  - intros sm Hin. destruct (existing_get E sm) as [r|] eqn:Er.
    + apply (Hsy2 (Supermarket.id r)). apply in_flat_map. exists sm. split; [exact Hin|].
      unfold upd_of. rewrite Er. now left.
    + assert (Hsm : In sm nw) by (apply Hnw; auto).
      destruct (Hnew sm Hsm) as [p [Hp _]].
      apply (synced_keep d1 _ sm p (Hsy1 sm Hsm) Hp). apply Hout2.
      intros Hpu. unfold up_pids in Hpu. apply in_map_iff in Hpu as [[rid x] [Hx Hxin]].
      cbn [snd] in Hx. apply in_upd_of in Hxin as [Hxb [r [Exr _]]].
      rewrite (pid_unique batch x sm p Hnd Hxb Hin Hx Hp) in Exr. congruence.
  - intros q Hq. rewrite Hout2.
    + apply Hout1. intros Hqn. apply Hq. apply In_place_ids in Hqn as [x [Hx Hxp]].
      apply Hnw in Hx as [Hx _]. apply In_place_ids. eauto.
    + intros Hpu. apply Hq. unfold up_pids in Hpu. apply in_map_iff in Hpu as [[rid x] [Hx Hxin]].
      cbn [snd] in Hx. apply in_upd_of in Hxin as [Hxb _]. apply In_place_ids. eauto.
Qed.

(** *** A whole batch, second run *)

Lemma filter_all_false {A} (f : A -> bool) l :
  (forall x, In x l -> f x = false) -> filter f l = [].
Proof.
  induction l as [|x l IH]; intros H; simpl; [reflexivity|].
  rewrite (H x (or_introl eq_refl)). apply IH. intros y Hy. apply H. now right.
Qed.

(** A batch whose records are all already stored under their place ids
    inserts nothing and rewrites every row with the data it holds. *)
Lemma batch_run2 now db batch :
  db_up db = true -> pk_ok db -> Forall has_place_id batch ->
  (forall sm, In sm batch -> synced db sm) ->
  erase_db (batch_db now db batch) = erase_db db.
Proof.
  intros Hup Hpk Hall Hsy. rewrite Forall_forall in Hall.
  assert (Hget : forall sm, In sm batch -> exists r,
             existing_get (find_existing db batch) sm = Some r /\ In r (supermarkets db)
             /\ Supermarket.data r = sm).
  { intros sm Hin. destruct (existing_get_first db batch sm Hup Hin (Hall sm Hin)) as [p [Hp Ep]].
    destruct (Hsy sm Hin) as [p' [r [Hp' [Hr Hd]]]]. rewrite Hp in Hp'. injection Hp' as <-.
    exists r. rewrite Ep. split; [exact Hr|]. split; [|exact Hd].
    unfold first_row in Hr. now apply find_some in Hr. }
  unfold batch_db.
  replace (new_records db batch) with (@nil Supermarket.t).
  2:{ symmetry. apply filter_all_false. intros sm Hin. destruct (Hget sm Hin) as [r [-> _]].
      reflexivity. }
  apply apply_updates_run2; [exact Hup|].
  intros rid sm x Hin Hx Hid. rewrite update_records_eq in Hin.
  apply in_upd_of in Hin as [Hin [r [Er Hrid]]].
  destruct (Hget sm Hin) as [r' [Er' [Hr' Hd']]]. rewrite Er in Er'. injection Er' as <-.
  subst rid. rewrite (NoDup_map_inj_in _ _ _ _ Hpk Hx Hr' Hid). exact Hd'.
Qed.

Lemma first_row_erase d p :
  first_row (erase_db d) p = option_map erase_row (first_row d p).
Proof. unfold first_row, erase_db. simpl. rewrite find_map_comp. reflexivity. Qed.

(** Two stores equal up to [last_updated] agree on reachability, on the
    primary key and on which records are stored under their place ids. *)
Lemma erase_transfer d d' :
  erase_db d = erase_db d' ->
  db_up d' = db_up d /\ (pk_ok d -> pk_ok d') /\ (forall sm, synced d sm -> synced d' sm).
Proof.
  intros E. split; [|split].
  - exact (f_equal db_up (eq_sym E)).
  - unfold pk_ok. intros H.
    assert (Hids : forall x, map Supermarket.id (supermarkets x)
                             = map Supermarket.id (supermarkets (erase_db x))).
    { intros x. unfold erase_db. simpl. rewrite map_map. reflexivity. }
    rewrite Hids, <- E, <- Hids. exact H.
  - intros sm [p [r [Hp [Hr Hd]]]]. pose proof (f_equal (fun x => first_row x p) E) as F.
    simpl in F. rewrite !first_row_erase, Hr in F.
    destruct (first_row d' p) as [r'|] eqn:Er'; [|discriminate].
    injection F as _ Hdat _. exists p, r'. split; [exact Hp|]. split; [exact Er'|].
    congruence.
Qed.

(** *** All batches *)

Lemma NoDup_app_disjoint {A} (l1 l2 : list A) a :
  NoDup (l1 ++ l2) -> In a l1 -> ~ In a l2.
Proof.
  induction l1 as [|x l1 IH]; simpl; [contradiction|]. intros Hd [->|Ha].
  - apply NoDup_cons_iff in Hd as [Hn _]. intros H. apply Hn. apply in_or_app. now right.
  - apply NoDup_cons_iff in Hd as [_ Hd]. now apply IH.
Qed.

Lemma place_ids_app l1 l2 : place_ids (l1 ++ l2) = (place_ids l1 ++ place_ids l2)%list.
Proof. apply flat_map_app. Qed.

Lemma fold_run1 now bs db :
  db_up db = true -> pk_ok db -> Forall has_place_id (concat bs) ->
  NoDup (place_ids (concat bs)) ->
  let d := fold_left (batch_db now) bs db in
  db_up d = true /\ pk_ok d /\
  (forall sm, In sm (concat bs) -> synced d sm) /\
  (forall q, ~ In q (place_ids (concat bs)) -> first_row d q = first_row db q).
Proof.
  revert db. induction bs as [|b bs IH]; intros db Hup Hpk Hall Hnd d; subst d.
  - repeat split; auto. intros ? [].
  - cbn [fold_left concat] in *. rewrite place_ids_app in Hnd.
    apply Forall_app in Hall as [Hb Hrest].
    destruct (batch_run1 now db b Hup Hpk Hb (NoDup_app_remove_r _ _ Hnd))
      as [Hup1 [Hpk1 [Hsy1 Hout1]]].
    destruct (IH (batch_db now db b) Hup1 Hpk1 Hrest (NoDup_app_remove_l _ _ Hnd))
      as [Hup2 [Hpk2 [Hsy2 Hout2]]].
    split; [exact Hup2|]. split; [exact Hpk2|]. split.
    + intros sm Hin. apply in_app_or in Hin as [Hin|Hin]; [|now apply Hsy2].
      rewrite Forall_forall in Hb. destruct (Hb sm Hin) as [p [Hp _]].
      apply (synced_keep _ _ sm p (Hsy1 sm Hin) Hp). apply Hout2.
      apply (NoDup_app_disjoint _ _ _ Hnd). apply In_place_ids. eauto.
    + intros q Hq. rewrite place_ids_app in Hq. rewrite Hout2, Hout1; [reflexivity| |];
        intros H; apply Hq, in_or_app; auto.
Qed.

Lemma fold_run2 now bs d :
  db_up d = true -> pk_ok d -> Forall has_place_id (concat bs) ->
  (forall sm, In sm (concat bs) -> synced d sm) ->
  erase_db (fold_left (batch_db now) bs d) = erase_db d.
Proof.
  revert d. induction bs as [|b bs IH]; intros d Hup Hpk Hall Hsy; [reflexivity|].
  cbn [fold_left concat] in *. apply Forall_app in Hall as [Hb Hrest].
  assert (E : erase_db (batch_db now d b) = erase_db d).
  { apply batch_run2; auto. intros sm Hin. apply Hsy. apply in_or_app. now left. }
  destruct (erase_transfer _ _ (eq_sym E)) as [Hup1 [Hpk1 Hsy1]].
  rewrite IH, E; [reflexivity| | | exact Hrest|].
  - congruence.
  - now apply Hpk1.
  - intros sm Hin. apply Hsy1, Hsy. apply in_or_app. now right.
Qed.

Definition c2_record : Supermarket.t :=
  {| Supermarket.name := "Jumbo"; Supermarket.chain := "Jumbo";
     Supermarket.address := "Markt 1"; Supermarket.city := "Gouda";
     Supermarket.postal_code := "2801 JE"; Supermarket.latitude := 5201000000;
     Supermarket.longitude := 470000000; Supermarket.status := Open;
     Supermarket.google_place_id := Some "ChIJ-gouda-1";
     Supermarket.opening_hours := None |}.

(** Claim C2 (amended): when the store is reachable, its primary key is
    consistent, and every record handed to the upsert phase carries a
    non-empty place id with no place id repeated, a second run of the
    upsert phase on the same records leaves the store as the first run
    left it, except for the [last_updated] timestamps: no row is added and
    no other field changes. *)
Theorem C2_upsert_idempotent_with_place_ids db L now1 now2 :
  db_up db = true -> pk_ok db -> Forall has_place_id L -> NoDup (place_ids L) ->
  erase_db (upsert_db (upsert_db db now1 L) now2 L) = erase_db (upsert_db db now1 L).
Proof.
  intros Hup Hpk Hall Hnd. rewrite !upsert_db_fold.
  rewrite <- (concat_batches L) in Hall, Hnd.
  destruct (fold_run1 now1 (batches L) db Hup Hpk Hall Hnd) as [Hup1 [Hpk1 [Hsy1 _]]].
  apply fold_run2; auto.
Qed.

Lemma C2_upsert_idempotent_with_place_ids_witness :
  erase_db (upsert_db (upsert_db empty_db 1 [c2_record]) 2 [c2_record])
  = erase_db (upsert_db empty_db 1 [c2_record]).
Proof.
  apply C2_upsert_idempotent_with_place_ids.
  - reflexivity.
  - constructor.
  - constructor; [|constructor]. exists "ChIJ-gouda-1". split; [reflexivity|discriminate].
  - vm_compute. constructor; [intros []|constructor].
Defined.

(* ------------------------------------------------------------------ *)
(** * Further properties of the sync script *)

(** ** [formatTime] *)

(** [formatTime] leaves every string that is not four characters long
    unchanged; a four-character string gets a colon inserted after its
    second character, and dropping that colon gives the input back. *)
Lemma formatTime_inserts_colon (s : string) :
  (String.length s <> 4%nat -> formatTime s = s)
  /\ (String.length s = 4%nat ->
      String.length (formatTime s) = 5%nat
      /\ String.get 2 (formatTime s) = Some ":"%char
      /\ (substring 0 2 (formatTime s) ++ substring 3 2 (formatTime s))%string = s).
Proof.
  split.
  - intros H. unfold formatTime. apply Nat.eqb_neq in H. now rewrite H.
  - intros H. destruct s as [|a [|b [|c [|d [|e s]]]]]; simpl in H; try discriminate.
    repeat split.
Qed.

(** ** [parseOpeningHours] *)

(** The value written for one period. *)
Definition period_value (period : Place.period) : string :=
  match Place.close_time period with
  | Some ct => formatTime (Place.open_time period) ++ "-" ++ formatTime ct
  | None => "24 hours"
  end.

(** [days[dayIndex]] used as a key. *)
Definition day_name (d : nat) : string :=
  match nth_error days d with Some n => n | None => "undefined" end.

Lemma obj_set_get_same k v o : map_get k (obj_set k v o) = Some v.
Proof.
  induction o as [|[k' v'] o IH]; simpl; [now rewrite String.eqb_refl|].
  destruct (String.eqb_spec k k') as [<-|Hk]; simpl.
  - now rewrite String.eqb_refl.
  - apply String.eqb_neq in Hk. now rewrite Hk.
Qed.

Lemma obj_set_get_other k k' v o : k' <> k -> map_get k' (obj_set k v o) = map_get k' o.
Proof.
  intros Hne. induction o as [|[k0 v0] o IH]; simpl.
  - apply String.eqb_neq in Hne. now rewrite Hne.
  - destruct (String.eqb_spec k k0) as [<-|Hk]; simpl.
    + apply String.eqb_neq in Hne. now rewrite Hne.
    + now rewrite IH.
Qed.

Lemma obj_set_keys k v o : In k (map fst o) -> map fst (obj_set k v o) = map fst o.
Proof.
  induction o as [|[k0 v0] o IH]; simpl; [contradiction|]. intros H.
  destruct (String.eqb_spec k k0) as [<-|Hk]; simpl; [reflexivity|].
  rewrite IH; [reflexivity|]. destruct H; [congruence|assumption].
Qed.

Lemma day_name_eqb a b :
  (a < 7)%nat -> (b < 7)%nat -> String.eqb (day_name a) (day_name b) = Nat.eqb a b.
Proof.
  intros Ha Hb.
  destruct a as [|[|[|[|[|[|[|a]]]]]]]; try lia;
    destruct b as [|[|[|[|[|[|[|b]]]]]]]; try lia; reflexivity.
Qed.

Lemma day_name_in d : (d < 7)%nat -> In (day_name d) days.
Proof.
  intros H. destruct d as [|[|[|[|[|[|[|d]]]]]]]; try lia; simpl; tauto.
Qed.

Lemma fold_left_ext' {A B} (f g : A -> B -> A) (l : list B) (a : A) :
  (forall a x, f a x = g a x) -> fold_left f l a = fold_left g l a.
Proof. intros H. revert a. induction l as [|x l IH]; intros a; simpl; [reflexivity|]. now rewrite H. Qed.

Definition hours_step (oh : list (string * string)) (period : Place.period)
  : list (string * string) :=
  obj_set (day_name (Place.open_day period)) (period_value period) oh.

Lemma hours_fold ps :
  Forall (fun p => (Place.open_day p < 7)%nat) ps ->
  let h := fold_left hours_step ps (map (fun d => (d, "Closed")) days) in
  map fst h = days /\
  forall d, (d < 7)%nat ->
    map_get (day_name d) h
    = Some (match rev (filter (fun p => Nat.eqb (Place.open_day p) d) ps) with
            | p :: _ => period_value p
            | [] => "Closed"
            end).
Proof.
  induction ps as [|p ps IH] using rev_ind; intros Hall h; subst h.
  - split; [reflexivity|]. intros d Hd.
    destruct d as [|[|[|[|[|[|[|d]]]]]]]; try lia; reflexivity.
  - apply Forall_app in Hall as [Hps Hp]. inversion Hp as [|? ? Hp7 _]; subst.
    destruct (IH Hps) as [Hk Hv]. rewrite fold_left_app. cbn [fold_left]. unfold hours_step at 1 3.
    split.
    + rewrite obj_set_keys; [exact Hk|]. rewrite Hk. now apply day_name_in.
    + intros d Hd. rewrite filter_app. cbn [filter].
      destruct (Nat.eqb_spec (Place.open_day p) d) as [<-|Hne].
      * rewrite obj_set_get_same. cbn [app]. rewrite rev_app_distr. reflexivity.
      * rewrite obj_set_get_other.
        -- rewrite app_nil_r. apply Hv, Hd.
        -- intros E. apply Hne. apply Nat.eqb_eq. rewrite <- day_name_eqb by assumption.
           rewrite E. apply String.eqb_refl.
Qed.

(** With periods whose day index is 0..6, [parseOpeningHours] returns an
    object with exactly the seven day keys, sunday first; a day's value
    is the one written for the last period of that day ("HH:MM-HH:MM",
    or "24 hours" when the period has no close), and "Closed" when no
    period names it. *)
Lemma parseOpeningHours_days (place : Place.t) (oh : Place.hours) (ps : list Place.period) :
  Place.opening_hours place = Some oh -> Place.periods oh = Some ps ->
  Forall (fun p => (Place.open_day p < 7)%nat) ps ->
  exists hours, parseOpeningHours place = Some hours /\ map fst hours = days /\
    forall d, (d < 7)%nat ->
      map_get (day_name d) hours
      = Some (match rev (filter (fun p => Nat.eqb (Place.open_day p) d) ps) with
              | p :: _ => period_value p
              | [] => "Closed"
              end).
Proof.
  intros Hoh Hps Hall. unfold parseOpeningHours. rewrite Hoh. simpl. rewrite Hps.
  eexists; split; [reflexivity|].
  erewrite fold_left_ext'.
  - apply (hours_fold ps Hall).
  - intros o period. unfold hours_step, period_value, day_name.
    destruct (Place.close_time period); reflexivity.
Qed.

Definition c_hours_place : Place.t :=
  {| Place.place_id := Some "p1"; Place.name := "Lidl Gouda";
     Place.formatted_address := "Markt 1, 2801 JJ Gouda, Netherlands";
     Place.lat := 5201000000; Place.lng := 470000000;
     Place.business_status := Some "OPERATIONAL";
     Place.opening_hours :=
       Some {| Place.open_now := Some true;
               Place.periods := Some [{| Place.open_day := 1; Place.open_time := "0800";
                                         Place.close_time := Some "2100" |};
                                      {| Place.open_day := 1; Place.open_time := "0900";
                                         Place.close_time := Some "2000" |};
                                      {| Place.open_day := 0; Place.open_time := "0000";
                                         Place.close_time := None |}] |} |}.

Lemma parseOpeningHours_days_witness :
  exists hours, parseOpeningHours c_hours_place = Some hours /\ map fst hours = days /\
    forall d, (d < 7)%nat ->
      map_get (day_name d) hours
      = Some (match rev (filter (fun p => Nat.eqb (Place.open_day p) d)
                                (match option_map Place.periods (Place.opening_hours c_hours_place)
                                 with Some (Some ps) => ps | _ => [] end)) with
              | p :: _ => period_value p
              | [] => "Closed"
              end).
Proof.
  apply (parseOpeningHours_days c_hours_place
           (match Place.opening_hours c_hours_place with Some oh => oh
            | None => {| Place.open_now := None; Place.periods := None |} end)).
  - reflexivity.
  - reflexivity.
  - repeat constructor.
Defined.

(** ** [deduplicateResults] *)

Lemma existsb_eqb_false k seen : ~ In k seen -> existsb (String.eqb k) seen = false.
Proof.
  intros H. apply Bool.not_true_iff_false. intros E. apply existsb_exists in E as [k' [Hk' Eq]].
  apply String.eqb_eq in Eq. subst. contradiction.
Qed.

Lemma dedup_loop_id seen rs :
  NoDup (map dedup_key rs) -> (forall r, In r rs -> ~ In (dedup_key r) seen) ->
  dedup_loop seen rs = rs.
Proof.
  revert seen. induction rs as [|x rs IH]; intros seen Hd Hs; simpl; [reflexivity|].
  rewrite existsb_eqb_false by (apply Hs; now left).
  apply NoDup_cons_iff in Hd as [Hn Hd]. f_equal. apply IH; [exact Hd|].
  intros r Hr [E|E].
  - apply Hn. rewrite E. now apply in_map.
  - exact (Hs r (or_intror Hr) E).
Qed.

(** Deduplicating twice gives what deduplicating once gives. *)
Lemma deduplicateResults_idempotent (results : list Supermarket.t) :
  deduplicateResults (deduplicateResults results) = deduplicateResults results.
Proof.
  unfold deduplicateResults at 1. apply dedup_loop_id.
  - apply dedup_loop_nodup.
  - intros r _ [].
Qed.

(** ** The chain loop of [syncSupermarkets] *)

Definition log_chain (e : LogEntry) : string :=
  match e with ChainFetched c _ => c | FetchFailed c _ => c end.

Lemma convert_coordinates db now place :
  Supermarket.latitude (convertToSupermarketData db now place) = Place.lat place
  /\ Supermarket.longitude (convertToSupermarketData db now place) = Place.lng place.
Proof.
  unfold convertToSupermarketData. destruct (parse_address place) as [[a c] pc]. now split.
Qed.

(** Every record the chain loop collects lies inside the Netherlands
    bounding box (latitude 50.5..53.7, longitude 3.2..7.3), and the log
    holds exactly one entry per chain, in chain order, whether its search
    succeeded or failed. *)
Lemma fetch_all_in_box_one_entry_per_chain (apiKey : option string)
  (fetch : string -> Response) (db : Db) (now : Z) (chains : list string) :
  (forall r, In r (fst (fetch_all apiKey fetch db now chains)) ->
             isInNetherlands (Supermarket.latitude r) (Supermarket.longitude r) = true)
  /\ map log_chain (snd (fetch_all apiKey fetch db now chains)) = chains.
Proof.
  unfold fetch_all. rewrite fetch_all_acc. cbn [fst snd app]. split.
  - intros r Hr. apply in_flat_map in Hr as [c [_ Hr]]. unfold chain_results in Hr.
    destruct (searchPlacesByText _ _ _) as [rs|m]; [|contradiction].
    apply in_map_iff in Hr as [place [<- Hp]]. apply filter_In in Hp as [_ Hp].
    destruct (convert_coordinates db now place) as [-> ->]. exact Hp.
  - rewrite map_map. rewrite <- (map_id chains) at 2. apply map_ext. intros c.
    unfold chain_log. destruct (searchPlacesByText _ _ _); reflexivity.
Qed.

(** ** [upsertSupermarkets] on an unreachable store *)

Lemma existing_fold_down db batch m :
  db_up db = false -> fold_left (existing_step db) batch m = m.
Proof.
  intros Hd. revert m. induction batch as [|sm batch IH]; intros m; simpl; [reflexivity|].
  rewrite IH. unfold existing_step, select_by_place_id. rewrite Hd.
  destruct (Supermarket.google_place_id sm); [destruct (String.eqb _ _)|]; reflexivity.
Qed.

Lemma existing_get_nil sm : existing_get [] sm = None.
Proof. unfold existing_get. destruct (Supermarket.google_place_id sm); reflexivity. Qed.

Lemma process_batch_down now db ti tu batch :
  db_up db = false -> process_batch now (db, ti, tu) batch = (db, ti, tu).
Proof.
  intros Hd. unfold process_batch, find_existing. rewrite existing_fold_down by exact Hd.
  assert (Hf : forall l, filter (fun sm => match existing_get [] sm with
                                           | Some _ => false | None => true end) l = l).
  { induction l as [|x l IH]; simpl; [reflexivity|]. now rewrite existing_get_nil, IH. }
  assert (Hm : forall l, flat_map (fun sm => match existing_get [] sm with
                                             | Some r => [(Supermarket.id r, sm)]
                                             | None => [] end) l = []).
  { induction l as [|x l IH]; simpl; [reflexivity|]. now rewrite existing_get_nil, IH. }
  rewrite Hf, Hm. destruct batch as [|x xs]; [reflexivity|].
  unfold insert_rows. rewrite Hd. reflexivity.
Qed.

(** On an unreachable store [upsertSupermarkets] changes nothing and
    reports no record inserted and none updated. *)
Lemma upsert_unreachable_store_noop (db : Db) (now : Z) (l : list Supermarket.t) :
  db_up db = false -> upsertSupermarkets db now l = (db, 0%nat, 0%nat).
Proof.
  intros Hd. unfold upsertSupermarkets. generalize (batches l) as bs.
  induction bs as [|b bs IH]; cbn [fold_left]; [reflexivity|]. now rewrite process_batch_down.
Qed.

Lemma upsert_unreachable_store_noop_witness :
  upsertSupermarkets {| db_up := false; supermarkets := []; incidents := [] |} 1 [c2_record]
  = ({| db_up := false; supermarkets := []; incidents := [] |}, 0%nat, 0%nat).
Proof. apply upsert_unreachable_store_noop. reflexivity. Defined.

(** ** The counters of [upsertSupermarkets] *)

Lemma update_loop_counts now ups db (ti tu : nat) :
  let '(d, ti', tu') :=
    fold_left (fun '((db, ti), tu) '(rid, sm) =>
                 match update_row db now rid sm with
                 | Some db' => (db', ti, S tu)
                 | None => (db, ti, tu)
                 end) ups (db, ti, tu) in
  ti' = ti /\ (tu' <= tu + List.length ups)%nat.
Proof.
  revert db ti tu. induction ups as [|[rid sm] ups IH]; intros db ti tu; simpl; [lia|].
  destruct (update_row db now rid sm) as [db'|].
  - specialize (IH db' ti (S tu)). destruct (fold_left _ ups _) as [[d ti'] tu']. lia.
  - specialize (IH db ti tu). destruct (fold_left _ ups _) as [[d ti'] tu']. lia.
Qed.

Lemma split_lengths (E : list (string * Supermarket.row)) batch :
  (List.length (filter (fun sm => match existing_get E sm with
                                  | Some _ => false | None => true end) batch)
   + List.length (flat_map (fun sm => match existing_get E sm with
                                      | Some r => [(Supermarket.id r, sm)]
                                      | None => [] end) batch))%nat
  = List.length batch.
Proof.
  induction batch as [|sm batch IH]; simpl; [reflexivity|].
  destruct (existing_get E sm); simpl; lia.
Qed.

Lemma process_batch_counts now db ti tu batch :
  let '(d, ti', tu') := process_batch now (db, ti, tu) batch in
  (ti' + tu' <= ti + tu + List.length batch)%nat.
Proof.
  unfold process_batch. pose proof (split_lengths (find_existing db batch) batch) as HL.
  set (nw := filter _ batch) in *. set (ups := flat_map _ batch) in *.
  assert (Hins : exists d1 ti1, (ti1 <= ti + List.length nw)%nat /\
            (match nw with
             | [] => (db, ti)
             | _ => match insert_rows db now nw with
                    | Some db' => (db', (ti + List.length nw)%nat)
                    | None => (db, ti)
                    end
             end) = (d1, ti1)).
  { destruct nw as [|x xs]; [exists db, ti; split; [lia|reflexivity]|].
    destruct (insert_rows db now (x :: xs)) as [db'|].
    - exists db', (ti + List.length (x :: xs))%nat. split; [lia|reflexivity].
    - exists db, ti. split; [lia|reflexivity]. }
  destruct Hins as [d1 [ti1 [Hle ->]]].
  pose proof (update_loop_counts now ups d1 ti1 tu) as Hu.
  destruct (fold_left _ ups _) as [[d ti'] tu']. lia.
Qed.

Lemma length_concat_batches l : List.length l = List.length (concat (batches l)).
Proof. now rewrite concat_batches. Qed.

Lemma upsert_counts_le (db : Db) (now : Z) (l : list Supermarket.t) :
  let '(d, totalInserted, totalUpdated) := upsertSupermarkets db now l in
  (totalInserted + totalUpdated <= List.length l)%nat.
Proof.
  unfold upsertSupermarkets. rewrite length_concat_batches.
  assert (H : forall bs d ti tu,
             let '(d', ti', tu') := fold_left (process_batch now) bs (d, ti, tu) in
             (ti' + tu' <= ti + tu + List.length (concat bs))%nat).
  { induction bs as [|b bs IH]; intros d ti tu; cbn [fold_left concat List.length]; [lia|].
    pose proof (process_batch_counts now d ti tu b) as Hb.
    destruct (process_batch now (d, ti, tu) b) as [[d1 ti1] tu1].
    specialize (IH d1 ti1 tu1). destruct (fold_left _ bs _) as [[d' ti'] tu'].
    rewrite length_app. lia. }
  specialize (H (batches l) db 0%nat 0%nat). destruct (fold_left _ _ _) as [[d ti] tu]. lia.
Qed.

(** [upsertSupermarkets] never reports more records inserted plus
    updated than it was given. *)
Lemma upsert_counts_bounded (db : Db) (now : Z) (l : list Supermarket.t) :
  let '(d, totalInserted, totalUpdated) := upsertSupermarkets db now l in
  (totalInserted + totalUpdated <= List.length l)%nat.
Proof. apply upsert_counts_le. Qed.

(** ** Rows are never removed *)

Definition row_key (r : Supermarket.row) : nat * Z := (Supermarket.id r, Supermarket.created_at r).

Lemma apply_updates_keys now ups db :
  map row_key (supermarkets (apply_updates now ups db)) = map row_key (supermarkets db)
  /\ incidents (apply_updates now ups db) = incidents db
  /\ db_up (apply_updates now ups db) = db_up db.
Proof.
  revert db. induction ups as [|[rid sm] ups IH]; intros db; [auto|].
  rewrite apply_updates_cons. destruct (update_row db now rid sm) as [db'|] eqn:E; [|apply IH].
  destruct (IH db') as [H1 [H2 H3]]. rewrite H1, H2, H3.
  unfold update_row in E. destruct (db_up db); [|discriminate]. injection E as <-. simpl.
  split; [|auto]. rewrite map_map. apply map_ext. intros r.
  fold (upd_row now rid sm r). unfold row_key. rewrite upd_row_id. unfold upd_row.
  destruct (Nat.eqb _ _); reflexivity.
Qed.

Lemma after_insert_keys db now l :
  exists suf, map row_key (supermarkets (after_insert db now l))
              = (map row_key (supermarkets db) ++ suf)%list
  /\ incidents (after_insert db now l) = incidents db
  /\ db_up (after_insert db now l) = db_up db.
Proof.
  unfold after_insert. destruct l as [|x xs]; [exists []; rewrite app_nil_r; auto|].
  destruct (insert_rows db now (x :: xs)) as [d|] eqn:E; [|exists []; rewrite app_nil_r; auto].
  unfold insert_rows in E. destruct (negb (db_up db) || insert_violates db (x :: xs));
    [discriminate|]. injection E as <-. simpl. rewrite map_app. eexists; auto.
Qed.

Lemma upsert_db_keys (db : Db) (now : Z) (l : list Supermarket.t) :
  exists suf, map row_key (supermarkets (upsert_db db now l))
              = (map row_key (supermarkets db) ++ suf)%list
  /\ incidents (upsert_db db now l) = incidents db
  /\ db_up (upsert_db db now l) = db_up db.
Proof.
  rewrite upsert_db_fold. generalize (batches l) as bs. intros bs. revert db.
  induction bs as [|b bs IH]; intros db; simpl; [exists []; rewrite app_nil_r; auto|].
  destruct (IH (batch_db now db b)) as [suf2 [H1 [H2 H3]]].
  unfold batch_db in H1, H2, H3 |- *.
  destruct (after_insert_keys db now (new_records db b)) as [suf1 [K1 [K2 K3]]].
  destruct (apply_updates_keys now (update_records db b)
              (after_insert db now (new_records db b))) as [A1 [A2 A3]].
  exists (suf1 ++ suf2)%list. rewrite H1, A1, K1, app_assoc. split; [reflexivity|].
  split; congruence.
Qed.

(** [upsertSupermarkets] never deletes a row and never changes a row's id
    or creation time: the stored rows come first, in their order, followed
    by the inserted ones; the incident table and the store's reachability
    are untouched. *)
Lemma upsert_keeps_existing_rows (db : Db) (now : Z) (l : list Supermarket.t) :
  exists suf, map row_key (supermarkets (upsert_db db now l))
              = (map row_key (supermarkets db) ++ suf)%list
  /\ incidents (upsert_db db now l) = incidents db
  /\ db_up (upsert_db db now l) = db_up db.
Proof. apply upsert_db_keys. Qed.

(** ** [upsertSupermarkets] stores every record *)

(** On a reachable store with a consistent primary key, when every record
    carries a non-empty place id and no place id repeats, after
    [upsertSupermarkets] each record is what the lookup by its place id
    finds, the primary key is still consistent, and lookups of other place
    ids are unchanged. *)
Lemma upsert_stores_every_record (db : Db) (now : Z) (L : list Supermarket.t) :
  db_up db = true -> pk_ok db -> Forall has_place_id L -> NoDup (place_ids L) ->
  pk_ok (upsert_db db now L)
  /\ (forall sm, In sm L -> synced (upsert_db db now L) sm)
  /\ (forall q, ~ In q (place_ids L) -> first_row (upsert_db db now L) q = first_row db q).
Proof.
  intros Hup Hpk Hall Hnd. rewrite upsert_db_fold.
  rewrite <- (concat_batches L) in Hall, Hnd |- *.
  destruct (fold_run1 now (batches L) db Hup Hpk Hall Hnd) as [_ [Hpk1 [Hsy1 Hout1]]].
  rewrite concat_batches in Hsy1, Hout1. rewrite concat_batches.
  auto.
Qed.

Lemma upsert_stores_every_record_witness :
  pk_ok (upsert_db empty_db 1 [c2_record])
  /\ (forall sm, In sm [c2_record] -> synced (upsert_db empty_db 1 [c2_record]) sm)
  /\ (forall q, ~ In q (place_ids [c2_record]) ->
                first_row (upsert_db empty_db 1 [c2_record]) q = first_row empty_db q).
Proof.
  apply upsert_stores_every_record.
  - reflexivity.
  - constructor.
  - constructor; [|constructor]. exists "ChIJ-gouda-1". split; [reflexivity|discriminate].
  - vm_compute. constructor; [intros []|constructor].
Defined.

(* ------------------------------------------------------------------ *)
(** * Further properties of the admin functions *)

(** The admin check of [get_admin_dashboard_stats] and
    [bulk_resolve_incidents] lets a caller through exactly when neither
    comparison is false: [auth.role()] is 'authenticated' or NULL, and the
    role claim is 'supermarket_admin' or absent. *)
Lemma admin_check_passes_iff (c : Caller) :
  raises_access_denied c = false <->
  (auth_role c = None \/ auth_role c = Some "authenticated")
  /\ (role_claim c = None \/ role_claim c = Some "supermarket_admin").
Proof.
  unfold raises_access_denied, sql_and, sql_eq, sql_not, sql_if.
  destruct (auth_role c) as [a|]; destruct (role_claim c) as [r|]; simpl;
    try destruct (String.eqb_spec a "authenticated") as [->|Ha];
    try destruct (String.eqb_spec r "supermarket_admin") as [->|Hr]; simpl;
    intuition congruence.
Qed.

Definition incident_statuses : list string := ["open"; "investigating"; "resolved"; "closed"].

(** [CHECK (status IN ('open', 'investigating', 'resolved', 'closed'))]:
    a NULL status passes the check. *)
Definition status_ok (st : option string) : Prop :=
  match st with
  | Some x => In x incident_statuses
  | None => True
  end.

Definition status_is_null (st : option string) : bool :=
  match st with
  | Some _ => false
  | None => true
  end.

Lemma count_active_resolved (l : list Incident.t) :
  Forall (fun i => status_ok (Incident.status i)) l ->
  (count (fun i => is_active_status (Incident.status i)) l
   + count (fun i => str_is (Incident.status i) "resolved"
                     || str_is (Incident.status i) "closed") l
   + count (fun i => status_is_null (Incident.status i)) l)%nat = List.length l.
Proof.
  unfold count. induction l as [|i l IH]; intros H; simpl; [reflexivity|].
  inversion H as [|? ? Hi Hl]; subst. specialize (IH Hl).
  unfold is_active_status at 1.
  destruct (Incident.status i) as [x|] eqn:Ex; simpl in Hi |- *.
  - destruct Hi as [E|[E|[E|[E|[]]]]]; rewrite <- E; simpl; lia.
  - lia.
Qed.

(** For a caller the admin check lets through, on a table whose statuses
    all satisfy the CHECK constraint (open, investigating, resolved,
    closed, or NULL), the dashboard's active and resolved counts add up to
    its total number of incidents less the incidents whose status is
    NULL, and its supermarket count is the number of rows. *)
Lemma dashboard_counts_add_up (c : Caller) (db : Db) :
  raises_access_denied c = false ->
  Forall (fun i => status_ok (Incident.status i)) (incidents db) ->
  exists s, get_admin_dashboard_stats c db = PgOk s
    /\ (active_incidents s + resolved_incidents s
        + count (fun i => status_is_null (Incident.status i)) (incidents db)
        = total_incidents s)%nat
    /\ total_supermarkets s = List.length (supermarkets db).
Proof.
  intros Hc Hs. unfold get_admin_dashboard_stats. rewrite Hc.
  eexists; split; [reflexivity|]. simpl. split; [|reflexivity].
  now apply count_active_resolved.
Qed.

(** The incidents of [c5_db] and one more whose status is NULL. *)
Definition null_status_db : Db :=
  {| db_up := true; supermarkets := supermarkets c5_db;
     incidents := (incidents c5_db
                  ++ [{| Incident.id := 5; Incident.supermarket_id := 1;
                         Incident.incident_type := "other"; Incident.status := None;
                         Incident.admin_notes := None; Incident.created_at := 0;
                         Incident.updated_at := 0 |}])%list |}.

Lemma dashboard_counts_add_up_witness :
  get_admin_dashboard_stats admin null_status_db
  = PgOk {| total_supermarkets := 1; total_incidents := 5;
            active_incidents := 3; resolved_incidents := 1 |}
  /\ exists s, get_admin_dashboard_stats admin null_status_db = PgOk s
    /\ (active_incidents s + resolved_incidents s
        + count (fun i => status_is_null (Incident.status i)) (incidents null_status_db)
        = total_incidents s)%nat
    /\ total_supermarkets s = List.length (supermarkets null_status_db).
Proof.
  split; [vm_compute; reflexivity|].
  apply dashboard_counts_add_up.
  - reflexivity.
  - repeat constructor; simpl; tauto.
Defined.

Definition resolvable (incident_ids : list nat) (i : Incident.t) : bool :=
  existsb (Nat.eqb (Incident.id i)) incident_ids
  && sql_neq (Incident.status i) "resolved".

Lemma bulk_update_shipped_trigger now incident_ids admin_note rows :
  bulk_update update_incidents_updated_at now incident_ids admin_note rows
  = if existsb (resolvable incident_ids) rows then PgErr (NoField "last_updated")
    else PgOk (rows, 0%nat).
Proof.
  induction rows as [|i rows IH]; [reflexivity|]. cbn [bulk_update existsb]. rewrite IH.
  change (existsb (Nat.eqb (Incident.id i)) incident_ids
          && sql_neq (Incident.status i) "resolved") with (resolvable incident_ids i).
  destruct (resolvable incident_ids i), (existsb (resolvable incident_ids) rows); reflexivity.
Qed.

(** With the trigger the schema installs on [supermarket_incidents],
    [bulk_resolve_incidents] never changes the store, whoever calls it:
    a rejected caller gets access denied; otherwise the call answers 0
    when no listed incident is unresolved and fails with the trigger's
    error as soon as one is. *)
Lemma bulk_resolve_never_changes_store (c : Caller) (now : Z) (db : Db)
  (incident_ids : list nat) (admin_note : option string) :
  bulk_resolve_incidents c now db incident_ids admin_note
  = (db, if raises_access_denied c then PgErr AccessDenied
         else if existsb (resolvable incident_ids) (incidents db)
         then PgErr (NoField "last_updated") else PgOk 0%nat).
Proof.
  unfold bulk_resolve_incidents, bulk_resolve_with.
  destruct (raises_access_denied c); [reflexivity|].
  rewrite bulk_update_shipped_trigger.
  destruct (existsb (resolvable incident_ids) (incidents db)); [reflexivity|].
  destruct db; reflexivity.
Qed.

(* ------------------------------------------------------------------ *)
(** * The postal code of a converted record *)

(** A Dutch postal code as the script normalises it: four digits, an
    optional single space, two capital letters. *)
Definition postal_shape (s : string) : bool :=
  match s with
  | String d1 (String d2 (String d3 (String d4 rest))) =>
      is_digit d1 && is_digit d2 && is_digit d3 && is_digit d4
      && match rest with
         | String a (String b EmptyString) => is_upper a && is_upper b
         | String w (String a (String b EmptyString)) =>
             Ascii.eqb w " " && is_upper a && is_upper b
         | _ => false
         end
  | _ => false
  end.

(** [match[1]] of the regular expression: the separator may be any
    whitespace character. *)
Definition raw_shape (s : string) : bool :=
  match s with
  | String d1 (String d2 (String d3 (String d4 rest))) =>
      is_digit d1 && is_digit d2 && is_digit d3 && is_digit d4
      && match rest with
         | String a (String b EmptyString) => is_upper a && is_upper b
         | String w (String a (String b EmptyString)) =>
             is_space w && is_upper a && is_upper b
         | _ => false
         end
  | _ => false
  end.

Ltac split_bools :=
  repeat match goal with
         | H : _ && _ = true |- _ => apply andb_true_iff in H; destruct H
         end.

Ltac rewrite_bools :=
  repeat match goal with
         | H : ?x = true |- context [?x] => rewrite H
         | H : ?x = false |- context [?x] => rewrite H
         end.

Lemma match_body_shape s m : match_body s = Some m -> raw_shape m = true.
Proof.
  destruct s as [|d1 [|d2 [|d3 [|d4 rest]]]]; simpl; try discriminate.
  destruct (is_digit d1 && is_digit d2 && is_digit d3 && is_digit d4) eqn:Hd;
    [|discriminate].
  split_bools.
  assert (Hl : forall acc r m, match_letters acc r = Some m ->
             exists a b, m = (acc ++ String a (String b ""))%string
                         /\ is_upper a = true /\ is_upper b = true).
  { intros acc [|a [|b r]] m'; simpl; try discriminate.
    destruct (is_upper a && is_upper b && negb (word_at r)) eqn:E; [|discriminate].
    intros Hm. injection Hm as <-. split_bools. eauto. }
  destruct rest as [|w rest']; [discriminate|].
  destruct (is_space w) eqn:Hw.
  - destruct (match_letters _ rest') as [m1|] eqn:E1.
    + intros Hm. injection Hm as <-. destruct (Hl _ _ _ E1) as [a [b [-> [Ha Hb]]]].
      simpl. rewrite_bools. reflexivity.
    + intros Hm. destruct (Hl _ _ _ Hm) as [a [b [-> [Ha Hb]]]]. simpl. rewrite_bools.
      reflexivity.
  - intros Hm. destruct (Hl _ _ _ Hm) as [a [b [-> [Ha Hb]]]]. simpl. rewrite_bools.
    reflexivity.
Qed.

Lemma regex_search_shape prev s m : regex_search prev s = Some m -> raw_shape m = true.
Proof.
  revert prev. induction s as [|c s IH]; intros prev; cbn [regex_search]; cbv zeta.
  - destruct (xorb _ _); discriminate.
  - destruct (if xorb (word_before prev) (word_at (String c s)) then match_body (String c s)
              else None) as [m'|] eqn:E.
    + intros Hm. injection Hm as <-. destruct (xorb _ _); [|discriminate].
      now apply match_body_shape in E.
    + apply IH.
Qed.

Lemma find_postal_part_shape i parts j part m :
  find_postal_part i parts = Some (j, part, m) -> raw_shape m = true.
Proof.
  revert i. induction parts as [|p parts IH]; intros i; simpl; [discriminate|].
  destruct (find_postal_part (S i) parts) as [r|] eqn:E.
  - intros H. injection H as ->. now apply (IH (S i)).
  - destruct (postalCodeMatch p) as [m'|] eqn:Em; [|discriminate].
    intros H. injection H as _ _ <-. now apply regex_search_shape in Em.
Qed.

Lemma digit_not_space c : is_digit c = true -> is_space c = false.
Proof.
  unfold is_digit, is_space. set (n := nat_of_ascii c). intros H. split_bools.
  apply Nat.leb_le in H, H0.
  destruct (Nat.eqb_spec n 32); [lia|]. destruct (Nat.leb_spec 9 n); destruct (Nat.leb_spec n 13);
    simpl; lia || reflexivity.
Qed.

Lemma upper_not_space c : is_upper c = true -> is_space c = false.
Proof.
  unfold is_upper, is_space. set (n := nat_of_ascii c). intros H. split_bools.
  apply Nat.leb_le in H, H0.
  destruct (Nat.eqb_spec n 32); [lia|]. destruct (Nat.leb_spec 9 n); destruct (Nat.leb_spec n 13);
    simpl; lia || reflexivity.
Qed.

Ltac no_spaces :=
  repeat match goal with
         | H : is_digit ?c = true |- _ =>
             lazymatch goal with
             | _ : is_space c = false |- _ => fail
             | _ => pose proof (digit_not_space c H)
             end
         | H : is_upper ?c = true |- _ =>
             lazymatch goal with
             | _ : is_space c = false |- _ => fail
             | _ => pose proof (upper_not_space c H)
             end
         end.

Lemma normalise_shape m :
  raw_shape m = true ->
  postal_shape (collapse_ws false m) = true /\
  trim (collapse_ws false m) = collapse_ws false m.
Proof.
  destruct m as [|d1 [|d2 [|d3 [|d4 [|a [|b [|x [|y rest]]]]]]]]; simpl; try discriminate;
    try (rewrite !andb_false_r; discriminate).
  - intros H. split_bools. no_spaces.
    unfold trim, rev_string. simpl. rewrite_bools. simpl. rewrite_bools. simpl.
    rewrite_bools. split; reflexivity.
  - intros H. split_bools. no_spaces.
    unfold trim, rev_string. simpl. rewrite_bools. simpl. rewrite_bools. simpl.
    rewrite_bools. split; reflexivity.
Qed.

Lemma parse_address_postal place :
  snd (parse_address place)
  = match find_postal_part 0 (split ", " (Place.formatted_address place)) with
    | Some (_, _, m) => trim (collapse_ws false m)
    | None => trim ""
    end.
Proof.
  unfold parse_address.
  destruct (find_postal_part 0 (split ", " (Place.formatted_address place)))
    as [[[i part] m]|];
    repeat match goal with |- context [if ?b then _ else _] => destruct b end;
    reflexivity.
Qed.

(** The postal code of every converted record is empty or a Dutch postal
    code in normalised form: four digits, an optional single space, two
    capital letters ("1234AB" or "1234 AB"). *)
Lemma convert_postal_code_normalised (db : Db) (now : Z) (place : Place.t) :
  Supermarket.postal_code (convertToSupermarketData db now place) = ""
  \/ postal_shape (Supermarket.postal_code (convertToSupermarketData db now place)) = true.
Proof.
  assert (E : Supermarket.postal_code (convertToSupermarketData db now place)
              = snd (parse_address place)).
  { unfold convertToSupermarketData. destruct (parse_address place) as [[a c] pc]. reflexivity. }
  rewrite E, parse_address_postal.
  destruct (find_postal_part 0 _) as [[[i part] m]|] eqn:F; [|left; reflexivity].
  right. apply find_postal_part_shape in F. destruct (normalise_shape m F) as [H1 H2].
  now rewrite H2.
Qed.

(* ------------------------------------------------------------------ *)
(** ** Replacing the whole table (databaseService.ts, [bulkUpdateSupermarkets]) *)

(** The id [00000000-0000-0000-0000-000000000000] the delete spares; row
    ids handed out by [insert_rows] are never 0. *)
Definition nil_uuid : nat := 0.

(** [.delete().neq('id', nil_uuid)], with the [ON DELETE CASCADE] of
    [supermarket_incidents.supermarket_id]. *)
Definition delete_all_rows (db : Db) : option Db :=
  if negb (db_up db) then None
  else
    let deleted := filter (fun r => negb (Nat.eqb (Supermarket.id r) nil_uuid))
                          (supermarkets db) in
    Some {| db_up := db_up db;
            supermarkets := filter (fun r => Nat.eqb (Supermarket.id r) nil_uuid)
                                   (supermarkets db);
            incidents := filter (fun i => negb (existsb (fun r =>
                                   Nat.eqb (Supermarket.id r) (Incident.supermarket_id i))
                                   deleted))
                                (incidents db) |}.

(** [insertData]: the record without its place id and opening hours
    ([google_place_id] and [opening_hours] are left NULL); [s.status ||
    'unknown'] is [s.status], a status string being never empty. *)
Definition bulk_insert_data (s : Supermarket.t) : Supermarket.t :=
  {| Supermarket.name := Supermarket.name s;
     Supermarket.chain := Supermarket.chain s;
     Supermarket.address := Supermarket.address s;
     Supermarket.city := Supermarket.city s;
     Supermarket.postal_code := Supermarket.postal_code s;
     Supermarket.latitude := Supermarket.latitude s;
     Supermarket.longitude := Supermarket.longitude s;
     Supermarket.status := Supermarket.status s;
     Supermarket.google_place_id := None;
     Supermarket.opening_hours := None |}.

(** [supermarkets.slice(i, i + size)] for [i = 0, size, 2 size, ...]. *)
Fixpoint slices {A} (size fuel : nat) (l : list A) : list (list A) :=
  match fuel with
  | O => []
  | S fuel' =>
      match l with
      | [] => []
      | _ => firstn size l :: slices size fuel' (skipn size l)
      end
  end.

(** The insert loop: [None] in the count is the thrown "Failed to insert
    batch"; the batches inserted before it stay in the store.
    [data?.length] is the number of rows the batch inserted. *)
Definition bulk_insert_step (now : Z) (st : Db * option nat) (batch : list Supermarket.t)
  : Db * option nat :=
  let '(db, acc) := st in
  match acc with
  | None => (db, None)
  | Some totalInserted =>
      match insert_rows db now (map bulk_insert_data batch) with
      | None => (db, None)
      | Some db' => (db', Some (totalInserted + List.length batch)%nat)
      end
  end.

(** [bulkUpdateSupermarkets(supermarkets)]: the store after the call and
    the count it returns ([None] when it throws). The final write to
    [sync_metadata] is not part of [Db]. *)
Definition bulkUpdateSupermarkets (db : Db) (now : Z) (l : list Supermarket.t)
  : Db * option nat :=
  match delete_all_rows db with
  | None => (db, None)
  | Some db1 =>
      fold_left (bulk_insert_step now) (slices 100 (List.length l) l) (db1, Some 0%nat)
  end.

Lemma concat_slices {A} size fuel (l : list A) :
  (0 < size)%nat -> (List.length l <= fuel)%nat -> concat (slices size fuel l) = l.
Proof.
  intros Hs. revert l. induction fuel as [|fuel IH]; intros l Hl.
  - destruct l; [reflexivity|simpl in Hl; lia].
  - destruct l as [|x l']; [reflexivity|]. cbn [slices concat].
    rewrite IH; [apply firstn_skipn|]. rewrite length_skipn. cbn [List.length] in Hl |- *. lia.
Qed.

Lemma place_ids_bulk l : place_ids (map bulk_insert_data l) = [].
Proof. induction l as [|s l IH]; [reflexivity|exact IH]. Qed.

Lemma bulk_insert_fold now bs db n :
  db_up db = true ->
  exists d fresh,
    fold_left (bulk_insert_step now) bs (db, Some n)
    = (d, Some (n + List.length (concat bs))%nat)
    /\ db_up d = db_up db /\ incidents d = incidents db
    /\ supermarkets d = (supermarkets db ++ fresh)%list
    /\ map Supermarket.data fresh = map bulk_insert_data (concat bs).
Proof.
  revert db n. induction bs as [|b bs IH]; intros db n Hup.
  - exists db, []. cbn. rewrite Nat.add_0_r, app_nil_r. repeat split; reflexivity.
  - cbn [fold_left concat]. unfold bulk_insert_step at 2.
    unfold insert_rows. rewrite Hup. unfold insert_violates. rewrite place_ids_bulk.
    cbn [negb orb existsb has_dup].
    set (db' := {| db_up := _; supermarkets := _; incidents := _ |}).
    destruct (IH db' (n + List.length b)%nat eq_refl) as (d & fresh & E & Hu & Hi & Hr & Hd).
    exists d, (map (fun '(k, sm) =>
                 {| Supermarket.id := (S (max_id (supermarkets db)) + k)%nat;
                    Supermarket.data := sm;
                    Supermarket.last_updated := now; Supermarket.created_at := now |})
               (combine (seq 0 (List.length (map bulk_insert_data b)))
                        (map bulk_insert_data b)) ++ fresh)%list.
    rewrite E, length_app, Nat.add_assoc. repeat split.
    + rewrite Hu. reflexivity.
    + exact Hi.
    + rewrite Hr. cbn [supermarkets db']. now rewrite app_assoc.
    + rewrite map_app, Hd, map_app. f_equal.
      change (fun '(k, sm) => _) with (mk_row (S (max_id (supermarkets db))) now).
      replace 0%nat with (0 + 0)%nat at 1 by reflexivity.
      apply mk_rows_data.
Qed.

Lemma delete_all_rows_up db :
  db_up db = true ->
  delete_all_rows db
  = Some {| db_up := db_up db;
            supermarkets := filter (fun r => Nat.eqb (Supermarket.id r) nil_uuid)
                                   (supermarkets db);
            incidents := filter (fun i => negb (existsb (fun r =>
                                   Nat.eqb (Supermarket.id r) (Incident.supermarket_id i))
                                   (filter (fun r => negb (Nat.eqb (Supermarket.id r) nil_uuid))
                                           (supermarkets db))))
                                (incidents db) |}.
Proof. intros H. unfold delete_all_rows. now rewrite H. Qed.

Lemma cascade_keeps_nil_only rows incs :
  Forall (fun i => exists r, In r rows /\ Supermarket.id r = Incident.supermarket_id i) incs ->
  filter (fun i => negb (existsb (fun r =>
            Nat.eqb (Supermarket.id r) (Incident.supermarket_id i))
            (filter (fun r => negb (Nat.eqb (Supermarket.id r) nil_uuid)) rows)))
         incs
  = filter (fun i => Nat.eqb (Incident.supermarket_id i) nil_uuid) incs.
Proof.
  induction incs as [|i incs IH]; intros Hfk; [reflexivity|].
  inversion Hfk as [|? ? [r [Hr Hid]] Hfk']; subst. cbn [filter].
  rewrite (IH Hfk').
  destruct (Nat.eqb (Incident.supermarket_id i) nil_uuid) eqn:E.
  - apply Nat.eqb_eq in E.
    destruct (existsb _ _) eqn:X; [|reflexivity].
    apply existsb_exists in X as [x [Hx Hxe]].
    apply filter_In in Hx as [_ Hx]. apply Nat.eqb_eq in Hxe.
    rewrite Hxe, E in Hx. discriminate.
  - replace (existsb _ _) with true; [reflexivity|].
    symmetry. apply existsb_exists. exists r. split.
    + apply filter_In. split; [exact Hr|]. now rewrite Hid, E.
    + now apply Nat.eqb_eq.
Qed.

(** [bulkUpdateSupermarkets] on a reachable store in which every incident
    belongs to a stored row: it returns the number of records given; the
    table then holds the rows with the nil id followed by one new row per
    record, in order, without place id or opening hours; the only
    incidents left are those of the nil-id rows (all others went with
    their row by the cascade). *)
Theorem bulkUpdate_replaces_table (db : Db) (now : Z) (l : list Supermarket.t) :
  db_up db = true ->
  Forall (fun i => exists r, In r (supermarkets db)
                             /\ Supermarket.id r = Incident.supermarket_id i)
         (incidents db) ->
  let '(d, res) := bulkUpdateSupermarkets db now l in
  res = Some (List.length l)
  /\ map Supermarket.data (supermarkets d)
     = (map Supermarket.data (filter (fun r => Nat.eqb (Supermarket.id r) nil_uuid)
                                     (supermarkets db))
        ++ map bulk_insert_data l)%list
  /\ incidents d = filter (fun i => Nat.eqb (Incident.supermarket_id i) nil_uuid)
                          (incidents db)
  /\ db_up d = true.
Proof.
  intros Hup Hfk. unfold bulkUpdateSupermarkets. rewrite (delete_all_rows_up db Hup).
  set (db1 := {| db_up := db_up db; supermarkets := _; incidents := _ |}).
  destruct (bulk_insert_fold now (slices 100 (List.length l) l) db1 0%nat Hup)
    as (d & fresh & E & Hu & Hi & Hr & Hd).
  rewrite E. rewrite concat_slices in Hd |- * by lia.
  repeat split.
  - rewrite Hr, map_app, Hd. reflexivity.
  - rewrite Hi. apply cascade_keeps_nil_only. exact Hfk.
  - rewrite Hu. exact Hup.
Qed.

Lemma bulkUpdate_replaces_table_witness :
  db_up c5_db = true
  /\ Forall (fun i => exists r, In r (supermarkets c5_db)
                                /\ Supermarket.id r = Incident.supermarket_id i)
            (incidents c5_db)
  /\ (let '(d, res) := bulkUpdateSupermarkets c5_db 7 [c2_record; c2_record] in
      res = Some (List.length [c2_record; c2_record])
      /\ map Supermarket.data (supermarkets d)
         = (map Supermarket.data (filter (fun r => Nat.eqb (Supermarket.id r) nil_uuid)
                                         (supermarkets c5_db))
            ++ map bulk_insert_data [c2_record; c2_record])%list
      /\ incidents d = filter (fun i => Nat.eqb (Incident.supermarket_id i) nil_uuid)
                              (incidents c5_db)
      /\ db_up d = true).
Proof.
  assert (Hfk : Forall (fun i => exists r, In r (supermarkets c5_db)
                                /\ Supermarket.id r = Incident.supermarket_id i)
                       (incidents c5_db)).
  { repeat constructor; exists c10_row; split; try (left; reflexivity); reflexivity. }
  split; [reflexivity|]. split; [exact Hfk|].
  exact (bulkUpdate_replaces_table c5_db 7 [c2_record; c2_record] eq_refl Hfk).
Defined.

(* ------------------------------------------------------------------ *)
(** ** The incident shown for a row (databaseService.ts, [fetchSupermarkets]) *)

(** An incident as the query joins it to its row: the incident and its
    [description] column. *)
Definition joined_incident : Type := Incident.t * option string.

(** [supermarket.incident]. *)
Record incident_info := {
  info_type : string;
  info_description : string;
  info_reportedAt : Z;
  info_reportedBy : string
}.

(** [Array.prototype.sort] with the comparator [b.created_at -
    a.created_at] is a stable sort, newest first: each incident is
    inserted after all earlier ones that are not older. *)
Fixpoint insert_desc (x : joined_incident) (l : list joined_incident)
  : list joined_incident :=
  match l with
  | [] => [x]
  | y :: l' =>
      if Incident.created_at (fst y) <? Incident.created_at (fst x)
      then x :: l
      else y :: insert_desc x l'
  end.

Definition sort_desc (l : list joined_incident) : list joined_incident :=
  fold_left (fun acc x => insert_desc x acc) l [].

(** [incident.status === 'open' || incident.status === 'investigating']. *)
Definition is_active_joined (x : joined_incident) : bool :=
  is_active_status (Incident.status (fst x)).

(** The body of [data.map(row => ...)]: the status served and the
    incident attached to the row. *)
Definition fetch_row (r : Supermarket.row) (joined : list joined_incident)
  : Status * option incident_info :=
  let activeIncidents := filter is_active_joined joined in
  match activeIncidents with
  | [] => (Supermarket.status (Supermarket.data r), None)
  | _ =>
      match sort_desc activeIncidents with
      | (latestIncident, description) :: _ =>
          (Closed,
           Some {| info_type := Incident.incident_type latestIncident;
                   info_description :=
                     match description with
                     | Some d => if String.eqb d "" then "Er is een probleem gemeld" else d
                     | None => "Er is een probleem gemeld"
                     end;
                   info_reportedAt := Incident.created_at latestIncident;
                   info_reportedBy := "Gebruiker" |})
      | [] => (Closed, None)
      end
  end.

Definition newer_of (o : option joined_incident) (x : joined_incident)
  : option joined_incident :=
  match o with
  | None => Some x
  | Some h => Some (if Incident.created_at (fst h) <? Incident.created_at (fst x) then x else h)
  end.

Lemma hd_insert_desc x acc : hd_error (insert_desc x acc) = newer_of (hd_error acc) x.
Proof.
  destruct acc as [|y acc]; [reflexivity|]. cbn [insert_desc hd_error newer_of].
  destruct (_ <? _); reflexivity.
Qed.

Lemma hd_sort_fold l acc :
  hd_error (fold_left (fun acc x => insert_desc x acc) l acc)
  = fold_left newer_of l (hd_error acc).
Proof.
  revert acc. induction l as [|x l IH]; intros acc; [reflexivity|].
  cbn [fold_left]. rewrite IH, hd_insert_desc. reflexivity.
Qed.

Definition first_newest (P : list joined_incident) (o : option joined_incident) : Prop :=
  match o with
  | None => P = []
  | Some h =>
      exists pre suf, P = (pre ++ h :: suf)%list
        /\ (forall x, In x pre -> Incident.created_at (fst x) < Incident.created_at (fst h))
        /\ (forall x, In x P -> Incident.created_at (fst x) <= Incident.created_at (fst h))
  end.

Lemma first_newest_step P o x :
  first_newest P o -> first_newest (P ++ [x])%list (newer_of o x).
Proof.
  destruct o as [h|]; cbn [first_newest newer_of].
  - intros (pre & suf & E & Hpre & Hall).
    destruct (Incident.created_at (fst h) <? Incident.created_at (fst x)) eqn:C.
    + apply Z.ltb_lt in C. exists P, []. split; [reflexivity|]. split.
      * intros y Hy. specialize (Hall y Hy). lia.
      * intros y Hy. apply in_app_or in Hy as [Hy|[<-|[]]]; [specialize (Hall y Hy)|]; lia.
    + apply Z.ltb_ge in C. exists pre, (suf ++ [x])%list. split.
      * rewrite E, <- app_assoc. reflexivity.
      * split; [exact Hpre|]. intros y Hy.
        apply in_app_or in Hy as [Hy|[<-|[]]]; [exact (Hall y Hy)|lia].
  - intros ->. exists [], []. split; [reflexivity|]. split; [intros y []|].
    intros y [<-|[]]. lia.
Qed.

Lemma first_newest_fold l P o :
  first_newest P o -> first_newest (P ++ l)%list (fold_left newer_of l o).
Proof.
  revert P o. induction l as [|x l IH]; intros P o H.
  - now rewrite app_nil_r.
  - cbn [fold_left]. replace (P ++ x :: l)%list with ((P ++ [x]) ++ l)%list
      by now rewrite <- app_assoc.
    apply IH, first_newest_step, H.
Qed.

Lemma hd_sort_desc l : first_newest l (hd_error (sort_desc l)).
Proof.
  unfold sort_desc. rewrite hd_sort_fold. apply (first_newest_fold l [] None). reflexivity.
Qed.

Lemma filter_split_inv {A} (f : A -> bool) l pre x suf :
  filter f l = (pre ++ x :: suf)%list ->
  exists pre' suf', l = (pre' ++ x :: suf')%list /\ filter f pre' = pre.
Proof.
  revert pre. induction l as [|a l IH]; intros pre E.
  - destruct pre; discriminate.
  - cbn [filter] in E. destruct (f a) eqn:Fa.
    + destruct pre as [|b pre].
      * injection E as -> _. exists [], l. split; reflexivity.
      * injection E as -> E. destruct (IH pre E) as (p' & s' & -> & Hp).
        exists (b :: p'), s'. split; [reflexivity|]. cbn [filter]. now rewrite Fa, Hp.
    + destruct (IH pre E) as (p' & s' & -> & Hp).
      exists (a :: p'), s'. split; [reflexivity|]. cbn [filter]. now rewrite Fa.
Qed.

(** The row as [fetchSupermarkets] serves it. With no open or
    investigating incident joined, the stored status is kept and no
    incident is attached. Otherwise the status is closed and the incident
    attached is the first active one, in the order the rows are joined,
    among those with the latest [created_at]: its type and creation time,
    its description or "Er is een probleem gemeld" when that is NULL or
    empty, reported by "Gebruiker". *)
Theorem fetch_row_latest_active_incident (r : Supermarket.row)
  (joined : list joined_incident) :
  match fetch_row r joined with
  | (st, None) =>
      st = Supermarket.status (Supermarket.data r)
      /\ forall x, In x joined -> is_active_status (Incident.status (fst x)) = false
  | (st, Some info) =>
      st = Closed
      /\ exists pre i description suf,
           joined = (pre ++ (i, description) :: suf)%list
           /\ is_active_status (Incident.status i) = true
           /\ (forall x, In x pre -> is_active_status (Incident.status (fst x)) = true ->
                         Incident.created_at (fst x) < Incident.created_at i)
           /\ (forall x, In x joined -> is_active_status (Incident.status (fst x)) = true ->
                         Incident.created_at (fst x) <= Incident.created_at i)
           /\ info = {| info_type := Incident.incident_type i;
                        info_description :=
                          if truthy description then
                            match description with Some d => d | None => "" end
                          else "Er is een probleem gemeld";
                        info_reportedAt := Incident.created_at i;
                        info_reportedBy := "Gebruiker" |}
  end.
Proof.
  unfold fetch_row. cbv zeta. set (f := is_active_joined).
  pose proof (hd_sort_desc (filter f joined)) as H.
  destruct (filter f joined) as [|a act] eqn:Ea.
  - split; [reflexivity|]. intros x Hx. change (f x = false).
    destruct (f x) eqn:Fx; [|reflexivity].
    assert (In x (filter f joined)) as Hin by (apply filter_In; auto).
    rewrite Ea in Hin. contradiction.
  - rewrite <- Ea in H |- *. destruct (sort_desc (filter f joined)) as [|[i d] rest].
    + cbn in H. rewrite Ea in H. discriminate.
    + cbn [hd_error first_newest fst] in H. destruct H as (pre & suf & E & Hpre & Hall).
      split; [reflexivity|].
      destruct (filter_split_inv f joined pre (i, d) suf E) as (pre' & suf' & Ej & Hp).
      exists pre', i, d, suf'. split; [exact Ej|].
      assert (Hi : In (i, d) (filter f joined)) by (rewrite E; apply in_elt).
      apply filter_In in Hi as [_ Hi]. split; [exact Hi|]. split; [|split].
      * intros x Hx Fx. apply (Hpre x). rewrite <- Hp. apply filter_In. auto.
      * intros x Hx Fx. apply (Hall x). apply filter_In. auto.
      * destruct d as [s|]; [|reflexivity]. cbn [truthy].
        destruct (String.eqb s ""); reflexivity.
Qed.

(* ------------------------------------------------------------------ *)
(** ** What a completed sync run does to the store *)

Lemma dedup_loop_length seen l : (List.length (dedup_loop seen l) <= List.length l)%nat.
Proof.
  revert seen. induction l as [|x l IH]; intros seen; cbn [dedup_loop]; [lia|].
  destruct (existsb _ _); cbn [List.length]; [specialize (IH seen)|specialize (IH (dedup_key x :: seen))]; lia.
Qed.

(** A run of [syncSupermarkets] that gets as far as writing keeps every
    stored row (same id and creation time, same order) and only appends
    new ones, leaves the incident table alone, and reports at most as many
    records inserted plus updated as the searches returned. *)
Theorem syncSupermarkets_keeps_rows (chains : list string) (apiKey : option string)
  (fetch : string -> Response) (db : Db) (now : Z) (db' : Db)
  (totalInserted totalUpdated : nat) (log : list LogEntry) :
  syncSupermarkets_over chains apiKey fetch db now = SyncDone db' totalInserted totalUpdated log ->
  (exists suf, map row_key (supermarkets db') = (map row_key (supermarkets db) ++ suf)%list)
  /\ incidents db' = incidents db
  /\ db_up db' = db_up db
  /\ (totalInserted + totalUpdated <= List.length (fst (fetch_all apiKey fetch db now chains)))%nat.
Proof.
  unfold syncSupermarkets_over.
  destruct (negb (truthy apiKey)); [discriminate|]. destruct (negb (db_up db)); [discriminate|].
  destruct (fetch_all apiKey fetch db now chains) as [allResults lg]. cbn [fst].
  destruct allResults as [|x rest]; [discriminate|].
  set (u := deduplicateResults (x :: rest)).
  pose proof (upsert_counts_le db now u) as Hc.
  destruct (upsert_db_keys db now u) as (suf & K1 & K2 & K3).
  unfold upsert_db in K1, K2, K3.
  destruct (upsertSupermarkets db now u) as [[d ti] tu]. cbn [fst] in K1, K2, K3.
  intros E. injection E as <- <- <- <-.
  split; [exists suf; exact K1|]. split; [exact K2|]. split; [exact K3|].
  pose proof (dedup_loop_length [] (x :: rest)). unfold u, deduplicateResults in Hc. lia.
Qed.


(* ------------------------------------------------------------------ *)
(** ** When the recent-incident check answers yes *)



(* ------------------------------------------------------------------ *)
(** ** The incident summary view (initial schema, [supermarket_incident_summary]) *)

(** A row of the view; [active_incident_types], a [STRING_AGG] in no
    fixed order, is left out. *)
Record SummaryRow := {
  summary_supermarket_id : nat;
  summary_supermarket_name : string;
  summary_chain : string;
  summary_city : string;
  summary_active_incidents : nat;
  summary_total_incidents : nat;
  summary_last_incident_date : option Z
}.

(** SQL [MAX]: NULL over no rows. *)
Definition sql_max (l : list Z) : option Z :=
  fold_right (fun x o => match o with None => Some x | Some m => Some (Z.max x m) end) None l.

(** The group of one supermarket: [LEFT JOIN] on [s.id = si.supermarket_id];
    [COUNT(si.id)] counts the joined incidents, none for a supermarket
    without any. *)
Definition summary_row (db : Db) (s : Supermarket.row) : SummaryRow :=
  let si := incidents_of db s in
  {| summary_supermarket_id := Supermarket.id s;
     summary_supermarket_name := Supermarket.name (Supermarket.data s);
     summary_chain := Supermarket.chain (Supermarket.data s);
     summary_city := Supermarket.city (Supermarket.data s);
     summary_active_incidents := count (fun i => is_active_status (Incident.status i)) si;
     summary_total_incidents := List.length si;
     summary_last_incident_date :=
       sql_max (map Incident.created_at
                    (filter (fun i => is_active_status (Incident.status i)) si)) |}.

(** [GROUP BY s.id, ...] gives one group per supermarket, [id] being the
    primary key. The rows are listed in table order: the view's
    [ORDER BY active_incidents DESC, s.name] only permutes them. *)
Definition supermarket_incident_summary (db : Db) : list SummaryRow :=
  map (summary_row db) (supermarkets db).

Definition sum_nat (l : list nat) : nat := fold_right Nat.add 0%nat l.

Lemma count_cons {A} (p : A -> bool) x l :
  count p (x :: l) = ((if p x then 1 else 0) + count p l)%nat.
Proof. unfold count. cbn [filter]. destruct (p x); reflexivity. Qed.

Lemma count_filter {A} (p q : A -> bool) l :
  count p (filter q l) = count (fun x => q x && p x) l.
Proof.
  induction l as [|x l IH]; [reflexivity|]. cbn [filter].
  rewrite (count_cons (fun x => q x && p x)).
  destruct (q x); cbn [andb]; [rewrite count_cons, IH|rewrite IH]; reflexivity.
Qed.

Lemma sum_nat_map_add {A} (f g : A -> nat) l :
  sum_nat (map (fun x => f x + g x)%nat l) = (sum_nat (map f l) + sum_nat (map g l))%nat.
Proof. unfold sum_nat. induction l as [|x l IH]; cbn; [reflexivity|]. rewrite IH. lia. Qed.

Lemma count_rows_with_id (rows : list Supermarket.row) k :
  NoDup (map Supermarket.id rows) -> In k (map Supermarket.id rows) ->
  sum_nat (map (fun r => if Nat.eqb k (Supermarket.id r) then 1 else 0)%nat rows) = 1%nat.
Proof.
  induction rows as [|r rows IH]; cbn [map In]; [contradiction|].
  intros Hnd Hin. apply NoDup_cons_iff in Hnd as [Hn Hnd]. cbn [sum_nat fold_right].
  destruct (Nat.eqb k (Supermarket.id r)) eqn:E.
  - apply Nat.eqb_eq in E. subst k.
    assert (Z0 : forall rs, ~ In (Supermarket.id r) (map Supermarket.id rs) ->
              sum_nat (map (fun r' => if Nat.eqb (Supermarket.id r) (Supermarket.id r')
                                       then 1 else 0)%nat rs) = 0%nat).
    { induction rs as [|r' rs IHr]; intros Hni; [reflexivity|].
      cbn [map sum_nat fold_right] in Hni |- *.
      destruct (Nat.eqb _ _) eqn:E'.
      - apply Nat.eqb_eq in E'. exfalso. apply Hni. left. auto.
      - fold (sum_nat (map (fun r' => if Nat.eqb (Supermarket.id r) (Supermarket.id r')
                                       then 1 else 0)%nat rs)).
        rewrite IHr; [reflexivity|]. intros H. apply Hni. right. exact H. }
    fold (sum_nat (map (fun r' => if Nat.eqb (Supermarket.id r) (Supermarket.id r')
                                   then 1 else 0)%nat rows)).
    rewrite Z0 by exact Hn. reflexivity.
  - destruct Hin as [Hin|Hin]; [apply Nat.eqb_neq in E; congruence|].
    fold (sum_nat (map (fun r' => if Nat.eqb k (Supermarket.id r') then 1 else 0)%nat rows)).
    rewrite IH; auto.
Qed.

Lemma sum_counts_by_row (p : Incident.t -> bool) (rows : list Supermarket.row)
  (incs : list Incident.t) :
  NoDup (map Supermarket.id rows) ->
  Forall (fun i => In (Incident.supermarket_id i) (map Supermarket.id rows)) incs ->
  sum_nat (map (fun r => count (fun i => Nat.eqb (Incident.supermarket_id i)
                                                  (Supermarket.id r) && p i) incs) rows)
  = count p incs.
Proof.
  intros Hnd. induction incs as [|i incs IH]; intros Hfk.
  - clear. unfold count, sum_nat. cbn [filter List.length].
    induction rows as [|r rows IHr]; cbn; [reflexivity|exact IHr].
  - apply Forall_cons_iff in Hfk as [Hi Hfk].
    rewrite (map_ext _ (fun r => ((if Nat.eqb (Incident.supermarket_id i) (Supermarket.id r)
                                      && p i then 1 else 0)
                                  + count (fun i => Nat.eqb (Incident.supermarket_id i)
                                                    (Supermarket.id r) && p i) incs)%nat)
                     (fun r => count_cons _ _ _)).
    rewrite sum_nat_map_add, IH by exact Hfk. rewrite count_cons. f_equal.
    destruct (p i).
    + rewrite (map_ext _ (fun r => if Nat.eqb (Incident.supermarket_id i) (Supermarket.id r)
                                   then 1 else 0)%nat)
        by (intros r; now rewrite andb_true_r).
      apply count_rows_with_id; assumption.
    + rewrite (map_ext _ (fun _ => 0%nat)) by (intros r; now rewrite andb_false_r).
      clear. unfold sum_nat. induction rows as [|r rows IHr]; cbn; [reflexivity|exact IHr].
Qed.

Lemma count_true {A} (l : list A) : count (fun _ => true) l = List.length l.
Proof. unfold count. induction l as [|x l IH]; cbn; [reflexivity|]. now rewrite IH. Qed.

(** The incident summary view agrees with the admin dashboard: when every
    incident belongs to a stored supermarket (the foreign key) and ids are
    unique (the primary key), the view has one row per supermarket, and
    its per-supermarket totals and active counts add up to the dashboard's
    [total_incidents] and [active_incidents]. *)
Theorem summary_view_matches_dashboard (c : Caller) (db : Db) (s : DashboardStats) :
  pk_ok db ->
  Forall (fun i => In (Incident.supermarket_id i) (map Supermarket.id (supermarkets db)))
         (incidents db) ->
  get_admin_dashboard_stats c db = PgOk s ->
  List.length (supermarket_incident_summary db) = total_supermarkets s
  /\ sum_nat (map summary_total_incidents (supermarket_incident_summary db)) = total_incidents s
  /\ sum_nat (map summary_active_incidents (supermarket_incident_summary db))
     = active_incidents s.
Proof.
  intros Hpk Hfk. unfold get_admin_dashboard_stats.
  destruct (raises_access_denied c); [discriminate|]. intros E. injection E as <-.
  cbn [total_supermarkets total_incidents active_incidents].
  unfold supermarket_incident_summary. rewrite length_map, !map_map.
  split; [reflexivity|]. split.
  - cbn [summary_row summary_total_incidents]. unfold incidents_of.
    rewrite (map_ext _ (fun r => count (fun i => Nat.eqb (Incident.supermarket_id i)
                                                  (Supermarket.id r) && true) (incidents db))).
    + rewrite sum_counts_by_row by assumption. apply count_true.
    + intros r. rewrite <- count_filter. symmetry. apply count_true.
  - cbn [summary_row summary_active_incidents]. unfold incidents_of.
    rewrite (map_ext _ (fun r => count (fun i => Nat.eqb (Incident.supermarket_id i)
                                                  (Supermarket.id r)
                                         && is_active_status (Incident.status i))
                                       (incidents db))).
    + apply sum_counts_by_row; assumption.
    + intros r. apply count_filter.
Qed.

Lemma summary_view_matches_dashboard_witness :
  pk_ok c5_db
  /\ Forall (fun i => In (Incident.supermarket_id i) (map Supermarket.id (supermarkets c5_db)))
            (incidents c5_db)
  /\ get_admin_dashboard_stats admin c5_db
     = PgOk {| total_supermarkets := 1; total_incidents := 4;
               active_incidents := 3; resolved_incidents := 1 |}
  /\ List.length (supermarket_incident_summary c5_db) = 1%nat
  /\ sum_nat (map summary_total_incidents (supermarket_incident_summary c5_db)) = 4%nat
  /\ sum_nat (map summary_active_incidents (supermarket_incident_summary c5_db)) = 3%nat.
Proof.
  assert (Hpk : pk_ok c5_db) by (repeat constructor; intros []).
  assert (Hfk : Forall (fun i => In (Incident.supermarket_id i)
                                     (map Supermarket.id (supermarkets c5_db)))
                       (incidents c5_db)) by (repeat constructor).
  assert (Hs : get_admin_dashboard_stats admin c5_db
               = PgOk {| total_supermarkets := 1; total_incidents := 4;
                         active_incidents := 3; resolved_incidents := 1 |})
    by (vm_compute; reflexivity).
  split; [exact Hpk|]. split; [exact Hfk|]. split; [exact Hs|].
  exact (summary_view_matches_dashboard admin c5_db _ Hpk Hfk Hs).
Defined.

End HostTimeZone.

(** * Instances at a fixed time zone *)

(** A host clock at UTC: no daylight saving time, so [setHours_minus_24]
    is exactly 24 hours before [now]. *)
Definition utc_zone : TimeZone :=
  {| tz_offset := fun _ => 0; tz_local_offset := fun _ => 0 |}.




Lemma C4_sync_closed_service_unknown_witness :
  let db := {| db_up := true; supermarkets := []; incidents := [] |} in
  determineStatus utc_zone db 0 c4_place (Some "p4") = Closed
  /\ service_determineStatus c4_place = Unknown.
Proof.
  intros db.
  destruct (C4_sync_closed_service_unknown utc_zone db 0 c4_place (Some "p4")
              eq_refl eq_refl) as [H1 H2].
  split; [apply H1; vm_compute; reflexivity | exact H2].
Defined.

Lemma C10_failed_lookup_reports_open_witness :
  let db_down := {| db_up := false; supermarkets := [c10_row]; incidents := [c10_incident] |} in
  (* with the store reachable the same incident closes the location *)
  determineStatus utc_zone {| db_up := true; supermarkets := [c10_row]; incidents := [c10_incident] |}
                  1000000000 c10_place (Some "p1") = Closed
  /\ determineStatus utc_zone db_down 1000000000 c10_place (Some "p1") = Open.
Proof.
  intros db_down. split; [vm_compute; reflexivity|].
  apply C10_failed_lookup_reports_open.
  - left; reflexivity.
  - reflexivity.
  - reflexivity.
Defined.

Lemma C8_failed_search_skipped_witness :
  let db := {| db_up := true; supermarkets := []; incidents := [] |} in
  fetch_all utc_zone (Some "key") c8_fetch db 0 DUTCH_SUPERMARKET_CHAINS =
    (flat_map (chain_results utc_zone (Some "key") c8_fetch db 0) DUTCH_SUPERMARKET_CHAINS,
     map (chain_log (Some "key") c8_fetch db 0) DUTCH_SUPERMARKET_CHAINS)
  /\ List.length (flat_map (chain_results utc_zone (Some "key") c8_fetch db 0)
                           DUTCH_SUPERMARKET_CHAINS) = 1%nat.
Proof.
  intros db. split.
  - apply (proj1 (C8_failed_search_skipped utc_zone DUTCH_SUPERMARKET_CHAINS (Some "key")
                    c8_fetch db 0 eq_refl eq_refl)).
  - vm_compute. reflexivity.
Defined.

Lemma C9_address_example_witness :
  Supermarket.address (convertToSupermarketData utc_zone
                         {| db_up := true; supermarkets := []; incidents := [] |} 0 example_place)
  = "Dorpsstraat 12".
Proof.
  apply (C9_address_example utc_zone {| db_up := true; supermarkets := []; incidents := [] |} 0
                            example_place).
  reflexivity.
Defined.

Lemma syncSupermarkets_keeps_rows_witness :
  match syncSupermarkets utc_zone (Some "key") c8_fetch c5_db 0 with
  | SyncDone db' ti tu log =>
      (exists suf, map row_key (supermarkets db') = (map row_key (supermarkets c5_db) ++ suf)%list)
      /\ incidents db' = incidents c5_db
      /\ db_up db' = db_up c5_db
      /\ (ti + tu <= List.length (fst (fetch_all utc_zone (Some "key") c8_fetch c5_db 0
                                                  DUTCH_SUPERMARKET_CHAINS)))%nat
  | _ => False
  end.
Proof.
  unfold syncSupermarkets.
  destruct (syncSupermarkets_over utc_zone DUTCH_SUPERMARKET_CHAINS (Some "key") c8_fetch c5_db 0)
    as [m|lg|db' ti tu lg] eqn:E; try (vm_compute in E; discriminate).
  exact (syncSupermarkets_keeps_rows utc_zone DUTCH_SUPERMARKET_CHAINS (Some "key") c8_fetch
           c5_db 0 db' ti tu lg E).
Defined.

